(** * Fidelity evaluation of explanation methods (notebooks/XAI_initial.ipynb)

    A shallow embedding of the two functions of the notebook's
    "Benchmarking and Evaluation" cells, [fidelity_metric] and
    [compute_average_fidelity], and the properties of them that the
    specification of the repository states.

    Numbers.  The notebook computes on NumPy floats; here every number is a
    rational ([Q]), so sums, differences and the mean are exact and results
    are compared with [==] ([Qeq]).  The one non-number NumPy produces in
    this code, the [nan] that [np.mean] returns on an empty list, is kept as
    a value of its own ([NaN]).

    Arrays.  NumPy arrays are mutable objects: [instance.copy()] makes a new
    one and [instance_perturbed[idx] = ...] writes into it.  The store of
    arrays is therefore explicit: a finite map from locations to contents,
    threaded through every operation together with the log of what was
    requested from the explainer. *)

From Stdlib Require Import QArith Qabs ZArith Lia Lqa Permutation Sorted.
From stdpp Require Import gmap strings list.

#[local] Set Warnings "-clear-no-such-hyp".
Local Open Scope Z_scope.

(** ** Exceptions and results *)

(** The exceptions this code can raise: [ValueError] from [list.index],
    [IndexError] from indexing an array or a sequence out of range.
    [Unallocated] is not a Python exception: it marks a reference to no array
    of the store, which no Python program can hold. *)
Inductive exn : Type :=
  | ValueError
  | IndexError
  | Unallocated.

Inductive result (A : Type) : Type :=
  | Ok (a : A)
  | Raise (e : exn).
Arguments Ok {A} a.
Arguments Raise {A} e.

Definition is_ok {A} (r : result A) : bool :=
  match r with Ok _ => true | Raise _ => false end.

(** ** The store *)

Definition loc := nat.

Record state : Type := State {
  arrays : gmap loc (list Q);          (* the NumPy arrays alive, by reference *)
  requests : list (list Q * Z)         (* explain_instance calls: instance, num_features asked *)
}.

Definition M (A : Type) : Type := state -> result A * state.

Definition ret {A} (a : A) : M A := fun st => (Ok a, st).

Definition raise {A} (e : exn) : M A := fun st => (Raise e, st).

Definition bind {A B} (m : M A) (f : A -> M B) : M B :=
  fun st =>
    match m st with
    | (Ok a, st') => f a st'
    | (Raise e, st') => (Raise e, st')
    end.

Notation "x <- m ;; k" := (bind m (fun x => k))
  (at level 100, m at next level, right associativity).
Notation "m ;;; k" := (bind m (fun _ => k))
  (at level 100, right associativity).

(** [for x in l: body(x)] *)
Fixpoint for_each {A} (l : list A) (body : A -> M unit) : M unit :=
  match l with
  | [] => ret tt
  | x :: l' => body x ;;; for_each l' body
  end.

(** [acc = init; for x in l: acc = body(x, acc)] *)
Fixpoint for_fold {A S} (l : list A) (body : A -> S -> M S) (acc : S) : M S :=
  match l with
  | [] => ret acc
  | x :: l' => acc' <- body x acc ;; for_fold l' body acc'
  end.

(** [range(n)]: empty when [n <= 0]. *)
Definition range (n : Z) : list nat := seq 0 (Z.to_nat n).

(** ** NumPy primitives *)

Definition alloc (contents : list Q) : M loc :=
  fun st =>
    let l := fresh (dom (arrays st)) in
    (Ok l, State (<[l := contents]> (arrays st)) (requests st)).

Definition read (l : loc) : M (list Q) :=
  fun st =>
    match arrays st !! l with
    | Some a => (Ok a, st)
    | None => (Raise Unallocated, st)
    end.

(** [a.copy()] *)
Definition np_copy (a : loc) : M loc :=
  contents <- read a ;; alloc contents.

(** [np.zeros_like(a)] *)
Definition np_zeros_like (a : loc) : M loc :=
  contents <- read a ;; alloc (replicate (length contents) 0%Q).

(** [a[idx]] for an index that is not negative *)
Definition getitem (a : loc) (idx : nat) : M Q :=
  contents <- read a ;;
  match contents !! idx with
  | Some v => ret v
  | None => raise IndexError
  end.

(** [a[idx] = v] for an index that is not negative *)
Definition setitem (a : loc) (idx : nat) (v : Q) : M unit :=
  contents <- read a ;;
  if decide (idx < length contents)%nat
  then fun st => (Ok tt, State (<[a := <[idx := v]> contents]> (arrays st)) (requests st))
  else raise IndexError.

(** [np.mean] of a Python list: [nan] (and a warning) on the empty list. *)
Inductive np_float : Type :=
  | Real (q : Q)
  | NaN.

Definition Qsum (l : list Q) : Q := fold_left Qplus l 0%Q.

Definition np_mean (l : list Q) : np_float :=
  match l with
  | [] => NaN
  | _ => Real (Qsum l / inject_Z (Z.of_nat (length l)))
  end.

(** ** Python built-ins *)

(** A [dict] from feature names to scores, in insertion order. *)
Definition dict := list (string * Q).

(** [d[k] = v]: an existing key keeps its place and takes the new value, a new
    key goes last. *)
Fixpoint dict_setitem (d : dict) (k : string) (v : Q) : dict :=
  match d with
  | [] => [(k, v)]
  | (k', v') :: d' =>
      if decide (k' = k) then (k, v) :: d' else (k', v') :: dict_setitem d' k v
  end.

(** [dict(pairs)] *)
Definition dict_of_pairs (pairs : list (string * Q)) : dict :=
  fold_left (fun d kv => dict_setitem d (fst kv) (snd kv)) pairs [].

(** [d.items()] *)
Definition items (d : dict) : list (string * Q) := d.

(** [l.index(x)]: the first position of [x], [ValueError] when there is none. *)
Definition index_of (l : list string) (x : string) : option nat :=
  fst <$> list_find (fun y => y = x) l.

Definition list_index (l : list string) (x : string) : M nat :=
  match index_of l x with
  | Some i => ret i
  | None => raise ValueError
  end.

(** [l[:k]]: the first [k] elements, all of them when [k] is larger than the
    length, and for a negative [k] all but the last [-k]. *)
Definition slice_to {A} (l : list A) (k : Z) : list A :=
  if decide (k < 0)
  then take (Z.to_nat (Z.of_nat (length l) + k)) l
  else take (Z.to_nat k) l.

(** [sorted(l, key=lambda x: abs(x[1]), reverse=True)].  Python's sort is
    stable, also with [reverse=True]: entries with equal keys keep the order
    they had in [l].  [insert_desc e l] puts [e], which came before all of
    [l], in front of the first entry whose key is not larger than its own. *)
Definition abs_key (e : string * Q) : Q := Qabs (snd e).

Fixpoint insert_desc (e : string * Q) (l : list (string * Q)) : list (string * Q) :=
  match l with
  | [] => [e]
  | y :: l' =>
      if Qle_bool (abs_key y) (abs_key e) then e :: y :: l' else y :: insert_desc e l'
  end.

Definition sorted_abs_desc (l : list (string * Q)) : list (string * Q) :=
  foldr insert_desc [] l.

(** ** The notebook's functions *)

Section Notebook.

(** The notebook's global [data.feature_names]. *)
Variable feature_names : list string.

(** [model.predict(a.reshape(1, -1))[0][0]]: the model is called on a batch
    of one row and gives one row of outputs back; [model] is that row's first
    entry as a function of the row.  It reads the array and writes nothing. *)
Definition predict_00 (model : list Q -> Q) (a : loc) : M Q :=
  contents <- read a ;; ret (model contents).

(** The features [fidelity_metric] perturbs. *)
Definition features_to_remove (explanation : dict) (num_features : Z) : list string :=
  let sorted_features := sorted_abs_desc (items explanation) in
  map fst (slice_to sorted_features num_features).

Definition fidelity_metric (model : list Q -> Q) (instance : loc)
    (explanation : dict) (num_features : Z) : M Q :=
  instance_perturbed <- np_copy instance ;;
  baseline <- np_zeros_like instance ;;
  for_each (features_to_remove explanation num_features) (fun feature =>
    idx <- list_index feature_names feature ;;
    v <- getitem baseline idx ;;
    setitem instance_perturbed idx v) ;;;
  original_pred <- predict_00 model instance ;;
  perturbed_pred <- predict_00 model instance_perturbed ;;
  let fidelity := (original_pred - perturbed_pred)%Q in
  ret fidelity.

(** [explainer.explain_instance(instance, model_predict, num_features=n).as_list()]:
    the explainer is given the instance and the number of features asked
    for, and answers with a list of (feature, score) pairs.  [model_predict]
    is a global the notebook does not define; it is the same in every call
    and is part of [explainer] here. *)
Definition explain_instance (explainer : list Q -> Z -> list (string * Q))
    (instance : loc) (n : Z) : M (list (string * Q)) :=
  contents <- read instance ;;
  fun st => (Ok (explainer contents n),
             State (arrays st) (requests st ++ [(contents, n)])).

(** [X[i].copy()] on the two-dimensional array [X], which is only read. *)
Definition row_copy (X : list (list Q)) (i : nat) : M loc :=
  match X !! i with
  | Some row => alloc row
  | None => raise IndexError
  end.

Definition compute_average_fidelity (model : list Q -> Q) (X : list (list Q))
    (explainer : list Q -> Z -> list (string * Q))
    (num_samples : Z) (num_features : Z) : M np_float :=
  fidelities <- for_fold (range num_samples) (fun i fidelities =>
    instance <- row_copy X i ;;
    exp <- explain_instance explainer instance 5 ;;
    let exp_dict := dict_of_pairs exp in
    fidelity <- fidelity_metric model instance exp_dict num_features ;;
    ret (fidelities ++ [fidelity])) [] ;;
  ret (np_mean fidelities).

End Notebook.

(** ** What the code computes, without the store

    [zero_features] is the loop of [fidelity_metric] on the contents of the
    perturbed copy: whether it finished or raised, and the contents it left. *)

Fixpoint zero_features (feature_names : list string) (feats : list string)
    (a : list Q) : result unit * list Q :=
  match feats with
  | [] => (Ok tt, a)
  | feature :: rest =>
      match index_of feature_names feature with
      | None => (Raise ValueError, a)
      | Some idx =>
          if decide (idx < length a)%nat
          then zero_features feature_names rest (<[idx := 0%Q]> a)
          else (Raise IndexError, a)
      end
  end.

Definition fidelity_value (feature_names : list string) (model : list Q -> Q)
    (x : list Q) (explanation : dict) (num_features : Z) : result Q :=
  match zero_features feature_names (features_to_remove explanation num_features) x with
  | (Ok _, x') => Ok (model x - model x')%Q
  | (Raise e, _) => Raise e
  end.

(** The arrays [fidelity_metric] allocates in a store: the perturbed copy and
    the baseline. *)
Definition perturbed_loc (st : state) : loc := fresh (dom (arrays st)).

Definition baseline_loc (st : state) (x : list Q) : loc :=
  fresh (dom (<[perturbed_loc st := x]> (arrays st))).

(** ** The specification's wording *)

(** The positions of the instance that a list of feature identifiers names. *)
Definition positions_of (feature_names : list string) (feats : list string) : list nat :=
  omap (index_of feature_names) feats.

(** The instance with the given positions set to the baseline, zero. *)
Definition perturbed_spec (positions : list nat) (x : list Q) : list Q :=
  imap (fun i v => if bool_decide (i ∈ positions) then 0%Q else v) x.

(** The first [k] feature identifiers by descending absolute importance. *)
Definition top_k_spec (importance : dict) (k : nat) : list string :=
  map fst (take k (sorted_abs_desc importance)).

(** score = model(original) - model(perturbed) *)
Definition score_spec (feature_names : list string) (model : list Q -> Q)
    (x : list Q) (importance : dict) (k : nat) : Q :=
  (model x - model (perturbed_spec (positions_of feature_names (top_k_spec importance k)) x))%Q.

(** A linear model f(x) = w . x *)
Definition dot (w x : list Q) : Q := Qsum (zip_with Qmult w x).

(** The importance mapping that gives feature i the score w[i] * x[i]. *)
Definition linear_importance (feature_names : list string) (w x : list Q) : dict :=
  zip feature_names (zip_with Qmult w x).

(** Descending order of the keys, and the entries of one key class. *)
Definition key_ge (e1 e2 : string * Q) : Prop := (abs_key e2 <= abs_key e1)%Q.

Definition same_key (c : Q) (e : string * Q) : bool := Qeq_bool (abs_key e) c.

(** The loop of [compute_average_fidelity] without the store: the value of
    one iteration, the value of the loop over the indices [idxs] starting
    from the list [acc], and the rows the explainer was asked about before
    the loop ended or raised. *)
Definition sample_value (feature_names : list string) (model : list Q -> Q)
    (X : list (list Q)) (explainer : list Q -> Z -> list (string * Q))
    (num_features : Z) (i : nat) : result Q :=
  match X !! i with
  | None => Raise IndexError
  | Some row =>
      fidelity_value feature_names model row (dict_of_pairs (explainer row 5)) num_features
  end.

Fixpoint samples_value (feature_names : list string) (model : list Q -> Q)
    (X : list (list Q)) (explainer : list Q -> Z -> list (string * Q))
    (num_features : Z) (idxs : list nat) (acc : list Q) : result (list Q) :=
  match idxs with
  | [] => Ok acc
  | i :: rest =>
      match sample_value feature_names model X explainer num_features i with
      | Ok fidelity =>
          samples_value feature_names model X explainer num_features rest (acc ++ [fidelity])
      | Raise e => Raise e
      end
  end.

Fixpoint rows_explained (feature_names : list string) (model : list Q -> Q)
    (X : list (list Q)) (explainer : list Q -> Z -> list (string * Q))
    (num_features : Z) (idxs : list nat) : list (list Q) :=
  match idxs with
  | [] => []
  | i :: rest =>
      match X !! i with
      | None => []
      | Some row =>
          row :: (if is_ok (sample_value feature_names model X explainer num_features i)
                  then rows_explained feature_names model X explainer num_features rest
                  else [])
      end
  end.

(** The score of one row, with the mapping the explainer gives for it. *)
Definition row_score (feature_names : list string) (model : list Q -> Q)
    (explainer : list Q -> Z -> list (string * Q)) (num_features : Z)
    (row : list Q) (s : Q) : Prop :=
  fidelity_value feature_names model row (dict_of_pairs (explainer row 5)) num_features = Ok s.

(** ** The hybrid explanation (cell "Hybrid Approach: Combining LIME and SHAP")

    The cell averages, feature by feature, the score LIME gives and the
    score SHAP gives.  [exp_lime.as_list()], the SHAP values of the instance
    and [data.feature_names] come from cells the notebook does not have; they
    are the arguments here. *)

(** [d.get(k, default)] *)
Fixpoint dict_get (d : dict) (k : string) (dflt : Q) : Q :=
  match d with
  | [] => dflt
  | (k', v) :: d' => if decide (k' = k) then v else dict_get d' k dflt
  end.

(** [enumerate(l)], counting from [i] *)
Fixpoint enumerate_from {A} (i : nat) (l : list A) : list (nat * A) :=
  match l with
  | [] => []
  | x :: l' => (i, x) :: enumerate_from (S i) l'
  end.

Definition enumerate {A} (l : list A) : list (nat * A) := enumerate_from 0 l.

(** The loop [for idx, feature in enumerate(data.feature_names)]: whether it
    finished or raised, and what [hybrid_scores] holds then. *)
Fixpoint hybrid_loop (lime_scores : dict) (shap_val_instance : list Q)
    (enumerated : list (nat * string)) (hybrid_scores : dict) : result unit * dict :=
  match enumerated with
  | [] => (Ok tt, hybrid_scores)
  | (idx, feature) :: rest =>
      let lime_score := dict_get lime_scores feature 0%Q in
      match shap_val_instance !! idx with
      | None => (Raise IndexError, hybrid_scores)
      | Some shap_score =>
          hybrid_loop lime_scores shap_val_instance rest
            (dict_setitem hybrid_scores feature ((lime_score + shap_score) / 2)%Q)
      end
  end.

Definition hybrid_explanation (feature_names : list string)
    (lime_exp_list : list (string * Q)) (shap_val_instance : list Q)
    : result unit * dict :=
  let lime_scores := dict_of_pairs lime_exp_list in
  hybrid_loop lime_scores shap_val_instance (enumerate feature_names) [].

(** The mapping with every score multiplied by [c]. *)
Definition scale_scores (c : Q) (d : dict) : dict :=
  map (fun kv => (kv.1, (c * kv.2)%Q)) d.

(** Data for the hybrid explanation: LIME lists f1 and a feature the data set
    does not have; SHAP has a value for each of the three features. *)
Module HybridScenario.

Definition lime_exp_list : list (string * Q) := [("f1", 4); ("zz", 1)]%string%Q.

Definition shap_val_instance : list Q := [2; 6; 0]%Q.

(** A model with outputs between 0 and 1: 1 when the first feature is
    positive, 0 otherwise. *)
Definition step_model (v : list Q) : Q :=
  if Qle_bool (default 0%Q (v !! 0%nat)) 0 then 0%Q else 1%Q.

End HybridScenario.

(** ** Concrete data of the specification's scenarios *)

Module Scenario.

Definition names : list string := ["f0"; "f1"; "f2"]%string.

Definition x : list Q := [2; 3; 5]%Q.

(** f(x) = x[0] + 2*x[1] + 0*x[2] *)
Definition f (v : list Q) : Q :=
  (default 0 (v !! 0%nat) + 2 * default 0 (v !! 1%nat) + 0 * default 0 (v !! 2%nat))%Q.

Definition importance : dict := [("f0", 2); ("f1", 6); ("f2", 0)]%string%Q.

(** A store holding [x] at location 0 and nothing else. *)
Definition st0 : state := State {[ 0%nat := x ]} [].

(** A mapping that names a feature the data set does not have, with the
    smaller score of its two entries. *)
Definition importance_unknown : dict := [("f0", 5); ("nonexistent", 1)]%string%Q.

(** Three instances scoring 1, 2 and 3: the explainer names f0 only, so with
    k = 1 the score of a row is what f loses when x[0] is zeroed, x[0]. *)
Definition X3 : list (list Q) := [[1; 0; 0]; [2; 0; 0]; [3; 0; 0]]%Q.

Definition explain_f0 (row : list Q) (n : Z) : list (string * Q) :=
  take (Z.to_nat n) [("f0", 1)]%string%Q.

(** The empty store. *)
Definition st_empty : state := State ∅ [].

(** Five features, and an explainer that answers with as many of five
    entries as it is asked for. *)
Definition names5 : list string := ["a"; "b"; "c"; "d"; "e"]%string.

Definition x5 : list Q := [1; 2; 3; 4; 5]%Q.

(** The sum of the five features. *)
Definition f5 : list Q -> Q := dot [1; 1; 1; 1; 1]%Q.

Definition explain5 (row : list Q) (n : Z) : list (string * Q) :=
  take (Z.to_nat n) [("a", 5); ("b", 4); ("c", 3); ("d", 2); ("e", 1)]%string%Q.

End Scenario.

(** * Properties *)

(** ** The built-ins on small inputs *)

Example sorted_keeps_ties_in_order :
  sorted_abs_desc [("a", 1); ("b", -3); ("c", 3); ("d", 1)]%string%Q
  = [("b", -3); ("c", 3); ("a", 1); ("d", 1)]%string%Q.
Proof. reflexivity. Qed.

Example dict_last_value_first_place :
  dict_of_pairs [("a", 1); ("b", -3); ("a", 3); ("d", 1)]%string%Q
  = [("a", 3); ("b", -3); ("d", 1)]%string%Q.
Proof. reflexivity. Qed.

Example slices :
  slice_to [1; 2; 3]%nat 2 = [1; 2]%nat
  ∧ slice_to [1; 2; 3]%nat 7 = [1; 2; 3]%nat
  ∧ slice_to [1; 2; 3]%nat 0 = []
  ∧ slice_to [1; 2; 3]%nat (-1) = [1; 2]%nat
  ∧ slice_to [1; 2; 3]%nat (-5) = [].
Proof. repeat split. Qed.

Example index_is_first_occurrence :
  index_of ["u"; "v"; "u"]%string "u"%string = Some 0%nat
  ∧ index_of ["u"; "v"; "u"]%string "w"%string = None.
Proof. split; reflexivity. Qed.

Example mean_of_nothing : np_mean [] = NaN.
Proof. reflexivity. Qed.

(** ** The monad and the primitives *)

Lemma state_eta (st : state) : State (arrays st) (requests st) = st.
Proof. by destruct st. Qed.

Lemma perturbed_loc_fresh st : arrays st !! perturbed_loc st = None.
Proof.
  pose proof (is_fresh (dom (arrays st))) as Hf.
  by apply (not_elem_of_dom (D := gset loc)).
Qed.

Lemma baseline_loc_fresh st x :
  baseline_loc st x ≠ perturbed_loc st ∧ arrays st !! baseline_loc st x = None.
Proof.
  pose proof (is_fresh (dom (<[perturbed_loc st := x]> (arrays st)))) as Hf.
  fold (baseline_loc st x) in Hf.
  rewrite dom_insert_L in Hf. split.
  - intros Heq. apply Hf. rewrite Heq. set_solver.
  - apply (not_elem_of_dom (D := gset loc)). set_solver.
Qed.

Lemma bind_ok {A B} (m : M A) (f : A -> M B) st a st' :
  m st = (Ok a, st') -> bind m f st = f a st'.
Proof. unfold bind. by intros ->. Qed.

Lemma bind_raise {A B} (m : M A) (f : A -> M B) st e st' :
  m st = (Raise e, st') -> bind m f st = (Raise e, st').
Proof. unfold bind. by intros ->. Qed.

Lemma read_run l st a : arrays st !! l = Some a -> read l st = (Ok a, st).
Proof. unfold read. by intros ->. Qed.

Lemma getitem_run l idx st a v :
  arrays st !! l = Some a -> a !! idx = Some v -> getitem l idx st = (Ok v, st).
Proof.
  intros Hl Hv. unfold getitem. rewrite (bind_ok _ _ _ _ _ (read_run _ _ _ Hl)).
  by rewrite Hv.
Qed.

Lemma getitem_out_of_range l idx st a :
  arrays st !! l = Some a -> a !! idx = None -> getitem l idx st = (Raise IndexError, st).
Proof.
  intros Hl Hv. unfold getitem. rewrite (bind_ok _ _ _ _ _ (read_run _ _ _ Hl)).
  by rewrite Hv.
Qed.

Lemma setitem_run l idx v st a :
  arrays st !! l = Some a -> (idx < length a)%nat ->
  setitem l idx v st = (Ok tt, State (<[l := <[idx := v]> a]> (arrays st)) (requests st)).
Proof.
  intros Hl Hlt. unfold setitem. rewrite (bind_ok _ _ _ _ _ (read_run _ _ _ Hl)).
  by rewrite decide_True.
Qed.

Lemma alloc_run contents st :
  alloc contents st
  = (Ok (perturbed_loc st), State (<[perturbed_loc st := contents]> (arrays st)) (requests st)).
Proof. reflexivity. Qed.

Lemma predict_00_run model l st a :
  arrays st !! l = Some a -> predict_00 model l st = (Ok (model a), st).
Proof.
  intros Hl. unfold predict_00. by rewrite (bind_ok _ _ _ _ _ (read_run _ _ _ Hl)).
Qed.

(** The loop of [fidelity_metric], run in a store where the perturbed copy
    holds [a] and the baseline holds zeros of the same length. *)
Lemma for_each_zero_features names feats lp lb :
  lp ≠ lb ->
  forall a st,
  arrays st !! lp = Some a ->
  arrays st !! lb = Some (replicate (length a) 0%Q) ->
  for_each feats (fun feature =>
      idx <- list_index names feature ;;
      v <- getitem lb idx ;;
      setitem lp idx v) st
  = ((zero_features names feats a).1,
     State (<[lp := (zero_features names feats a).2]> (arrays st)) (requests st)).
Proof.
  intros Hne. induction feats as [|feature rest IH]; intros a st Hp Hb; simpl.
  - unfold ret. by rewrite insert_id, state_eta.
  - unfold list_index.
    destruct (index_of names feature) as [idx|] eqn:Hidx; simpl.
    2:{ erewrite bind_raise; [|erewrite bind_raise; reflexivity].
        by rewrite insert_id, state_eta. }
    destruct (decide (idx < length a)%nat) as [Hlt|Hge].
    + erewrite bind_ok.
      2:{ erewrite bind_ok by reflexivity.
          erewrite bind_ok by (eapply getitem_run; [done | by apply lookup_replicate_2]).
          by apply setitem_run. }
      rewrite (IH (<[idx := 0%Q]> a)); simpl.
      * by rewrite insert_insert_eq.
      * by rewrite lookup_insert_eq.
      * rewrite lookup_insert_ne by done. by rewrite length_insert.
    + erewrite bind_raise.
      2:{ erewrite bind_ok by reflexivity.
          erewrite bind_raise; [reflexivity|].
          eapply getitem_out_of_range; [done|].
          apply lookup_replicate_None. lia. }
      by rewrite insert_id, state_eta.
Qed.

(** One call of [fidelity_metric] on a store that holds [x] at [instance]:
    its result is [fidelity_value], and the store gains the perturbed copy and
    the baseline and changes nowhere else. *)
Lemma fidelity_metric_run names model instance explanation k st x :
  arrays st !! instance = Some x ->
  fidelity_metric names model instance explanation k st
  = (fidelity_value names model x explanation k,
     State (<[perturbed_loc st :=
                (zero_features names (features_to_remove explanation k) x).2]>
             (<[baseline_loc st x := replicate (length x) 0%Q]>
                (<[perturbed_loc st := x]> (arrays st))))
           (requests st)).
Proof.
  intros Hx. unfold fidelity_metric, fidelity_value.
  pose proof (perturbed_loc_fresh st) as Hp.
  destruct (baseline_loc_fresh st x) as [Hne Hb].
  assert (perturbed_loc st ≠ instance) as Hip by congruence.
  assert (baseline_loc st x ≠ instance) as Hib by congruence.
  set (lp := perturbed_loc st) in *. set (lb := baseline_loc st x) in *.
  set (st1 := State (<[lp := x]> (arrays st)) (requests st)).
  set (st2 := State (<[lb := replicate (length x) 0%Q]> (arrays st1)) (requests st1)).
  rewrite (bind_ok _ _ st lp st1).
  2:{ unfold np_copy. by rewrite (bind_ok _ _ _ _ _ (read_run _ _ _ Hx)). }
  assert (arrays st1 !! instance = Some x) as H1i.
  { subst st1; simpl. by rewrite lookup_insert_ne. }
  rewrite (bind_ok _ _ st1 lb st2).
  2:{ unfold np_zeros_like. by rewrite (bind_ok _ _ _ _ _ (read_run _ _ _ H1i)). }
  assert (arrays st2 !! lp = Some x) as H2p.
  { subst st2 st1; simpl. rewrite lookup_insert_ne by done. by rewrite lookup_insert_eq. }
  assert (arrays st2 !! lb = Some (replicate (length x) 0%Q)) as H2b.
  { subst st2; simpl. by rewrite lookup_insert_eq. }
  assert (arrays st2 !! instance = Some x) as H2i.
  { subst st2; simpl. by rewrite lookup_insert_ne. }
  pose proof (for_each_zero_features names (features_to_remove explanation k)
                lp lb (not_eq_sym Hne) x st2 H2p H2b) as Hloop.
  destruct (zero_features names (features_to_remove explanation k) x) as [[[]|e] x'] eqn:Hz;
    simpl in Hloop.
  - rewrite (bind_ok _ _ _ _ _ Hloop).
    erewrite bind_ok.
    2:{ apply predict_00_run. simpl. by rewrite lookup_insert_ne. }
    erewrite bind_ok.
    2:{ apply predict_00_run. simpl. by rewrite lookup_insert_eq. }
    reflexivity.
  - by rewrite (bind_raise _ _ _ _ _ Hloop).
Qed.

(** ** The loop on contents: length, frame, and the specification's wording *)

Lemma zero_features_length names feats : forall a,
  length (zero_features names feats a).2 = length a.
Proof.
  induction feats as [|feature rest IH]; intros a; simpl; [done|].
  destruct (index_of names feature) as [idx|]; [|done].
  destruct (decide (idx < length a)%nat); [|done].
  by rewrite IH, length_insert.
Qed.

Lemma zero_features_frame names feats i : forall a,
  i ∉ positions_of names feats ->
  (zero_features names feats a).2 !! i = a !! i.
Proof.
  unfold positions_of.
  induction feats as [|feature rest IH]; intros a Hi; simpl in *; [done|].
  destruct (index_of names feature) as [idx|] eqn:Hidx; simpl in Hi; [|done].
  destruct (decide (idx < length a)%nat); [|done].
  rewrite IH by set_solver.
  apply list_lookup_insert_ne. set_solver.
Qed.

Lemma perturbed_spec_insert i positions (a : list Q) :
  perturbed_spec positions (<[i := 0%Q]> a) = perturbed_spec (i :: positions) a.
Proof.
  apply list_eq. intros j. unfold perturbed_spec. rewrite !list_lookup_imap.
  destruct (decide (i = j)) as [->|Hne].
  - rewrite (bool_decide_eq_true_2 (j ∈ j :: positions)) by set_solver.
    destruct (decide (j < length a)%nat) as [Hlt|Hge].
    + rewrite list_lookup_insert_eq by done.
      destruct (lookup_lt_is_Some_2 a j Hlt) as [v ->]. simpl.
      by destruct (bool_decide (j ∈ positions)).
    + rewrite list_insert_ge by lia. rewrite lookup_ge_None_2 by lia. done.
  - rewrite list_lookup_insert_ne by done.
    destruct (a !! j); [simpl|done].
    rewrite (bool_decide_ext (j ∈ i :: positions) (j ∈ positions)); [done|].
    rewrite elem_of_cons. naive_solver.
Qed.

Lemma perturbed_spec_nil (a : list Q) : perturbed_spec [] a = a.
Proof.
  apply list_eq. intros j. unfold perturbed_spec. rewrite list_lookup_imap.
  by destruct (a !! j).
Qed.

Lemma perturbed_spec_ext positions positions' (a : list Q) :
  (forall i, (i < length a)%nat -> i ∈ positions <-> i ∈ positions') ->
  perturbed_spec positions a = perturbed_spec positions' a.
Proof.
  intros Hext. apply list_eq. intros j. unfold perturbed_spec.
  rewrite !list_lookup_imap. destruct (a !! j) eqn:Hj; [simpl|done].
  apply lookup_lt_Some in Hj. by rewrite (bool_decide_ext _ _ (Hext j Hj)).
Qed.

(** When every feature resolves to a position of the array the loop ends
    normally, and what it leaves is the array with those positions zeroed. *)
Lemma zero_features_ok names feats : forall a,
  (forall feature, feature ∈ feats ->
     exists idx, index_of names feature = Some idx ∧ (idx < length a)%nat) ->
  zero_features names feats a = (Ok tt, perturbed_spec (positions_of names feats) a).
Proof.
  unfold positions_of.
  induction feats as [|feature rest IH]; intros a Hres; simpl.
  - by rewrite perturbed_spec_nil.
  - destruct (Hres feature) as (idx & -> & Hlt); [set_solver|]. simpl.
    rewrite decide_True by done. rewrite IH.
    + by rewrite perturbed_spec_insert.
    + intros f Hf. rewrite length_insert. apply Hres. set_solver.
Qed.

(** The loop raises exactly when some feature does not resolve. *)
Lemma zero_features_raise names feats : forall a e a',
  zero_features names feats a = (Raise e, a') ->
  exists feature, feature ∈ feats ∧
    ((e = ValueError ∧ index_of names feature = None) ∨
     (e = IndexError ∧ exists idx, index_of names feature = Some idx ∧ (length a <= idx)%nat)).
Proof.
  induction feats as [|feature rest IH]; intros a e a' Hz; simpl in Hz; [done|].
  destruct (index_of names feature) as [idx|] eqn:Hidx.
  - destruct (decide (idx < length a)%nat) as [Hlt|Hge].
    + apply IH in Hz as (f & Hf & Hcase). exists f. split; [set_solver|].
      rewrite length_insert in Hcase. done.
    + injection Hz as <- <-. exists feature. split; [set_solver|].
      right. split; [done|]. exists idx. split; [done|lia].
  - injection Hz as <- <-. exists feature. split; [set_solver|]. by left.
Qed.

Lemma index_of_None names feature : index_of names feature = None <-> feature ∉ names.
Proof.
  unfold index_of. destruct (list_find _ names) as [[i y]|] eqn:Hf; simpl.
  - apply list_find_Some in Hf as (Hi & -> & _).
    split; [done|]. intros Hn. exfalso. apply Hn. by eapply list_elem_of_lookup_2.
  - split; [|done]. intros _ Hin.
    rewrite list_find_None in Hf. rewrite Forall_forall in Hf. by apply (Hf feature).
Qed.

Lemma index_of_Some names feature idx :
  index_of names feature = Some idx -> names !! idx = Some feature.
Proof.
  unfold index_of. destruct (list_find _ names) as [[i y]|] eqn:Hf; simpl; [|done].
  intros [= ->]. by apply list_find_Some in Hf as (Hi & -> & _).
Qed.

Lemma index_of_NoDup names feature idx :
  NoDup names -> names !! idx = Some feature -> index_of names feature = Some idx.
Proof.
  intros Hnd Hi. destruct (index_of names feature) as [j|] eqn:Hj.
  - apply index_of_Some in Hj. f_equal. by eapply NoDup_lookup.
  - apply index_of_None in Hj. exfalso. apply Hj. by eapply list_elem_of_lookup_2.
Qed.

(** ** Slices *)

Lemma slice_to_nonneg {A} (l : list A) k : 0 <= k -> slice_to l k = take (Z.to_nat k) l.
Proof. intros Hk. unfold slice_to. by rewrite decide_False by lia. Qed.

Lemma slice_to_all {A} (l : list A) k : Z.of_nat (length l) <= k -> slice_to l k = l.
Proof. intros Hk. rewrite slice_to_nonneg by lia. apply take_ge. lia. Qed.

Lemma slice_to_negative {A} (l : list A) k :
  k < 0 -> slice_to l k = slice_to l (Z.max 0 (Z.of_nat (length l) + k)).
Proof.
  intros Hk. rewrite (slice_to_nonneg l (Z.max _ _)) by lia.
  unfold slice_to. rewrite decide_True by done. f_equal. lia.
Qed.

Lemma slice_to_length_le {A} (l : list A) k : (length (slice_to l k) <= length l)%nat.
Proof. unfold slice_to. destruct (decide (k < 0)); rewrite length_take; lia. Qed.

Lemma slice_to_length_nonneg {A} (l : list A) k :
  0 <= k -> (length (slice_to l k) <= Z.to_nat k)%nat.
Proof. intros Hk. rewrite slice_to_nonneg by done. rewrite length_take. lia. Qed.

(** ** The sort *)

Lemma insert_desc_perm e l : insert_desc e l ≡ₚ e :: l.
Proof.
  induction l as [|y l IH]; simpl; [done|].
  destruct (Qle_bool (abs_key y) (abs_key e)); [done|].
  rewrite IH. apply Permutation_swap.
Qed.

Lemma sorted_abs_desc_perm l : sorted_abs_desc l ≡ₚ l.
Proof.
  induction l as [|e l IH]; simpl; [done|].
  rewrite insert_desc_perm. by rewrite IH.
Qed.

Lemma sorted_abs_desc_length l : length (sorted_abs_desc l) = length l.
Proof. apply Permutation_length, sorted_abs_desc_perm. Qed.

Lemma key_ge_trans e1 e2 e3 : key_ge e1 e2 -> key_ge e2 e3 -> key_ge e1 e3.
Proof. unfold key_ge. intros H12 H23. by eapply Qle_trans. Qed.

Lemma insert_desc_sorted e l :
  StronglySorted key_ge l -> StronglySorted key_ge (insert_desc e l).
Proof.
  induction 1 as [|y l Hs IH Hy]; simpl.
  - repeat constructor.
  - destruct (Qle_bool (abs_key y) (abs_key e)) eqn:Hle.
    + apply Qle_bool_iff in Hle. constructor.
      * by constructor.
      * constructor; [done|].
        eapply Forall_impl; [exact Hy|]. intros z Hz. by eapply key_ge_trans.
    + constructor; [done|].
      rewrite insert_desc_perm. constructor; [|done].
      unfold key_ge. apply Qlt_le_weak. apply Qnot_le_lt. intros Hc.
      apply Qle_bool_iff in Hc. congruence.
Qed.

Lemma sorted_abs_desc_sorted l : StronglySorted key_ge (sorted_abs_desc l).
Proof.
  induction l as [|e l IH]; simpl; [constructor|]. by apply insert_desc_sorted.
Qed.

(** Stability: the entries of one key class come out in the order they went in. *)
Lemma insert_desc_stable c e l :
  List.filter (same_key c) (insert_desc e l) = List.filter (same_key c) (e :: l).
Proof.
  induction l as [|y l IH]; [done|]. cbn [insert_desc].
  destruct (Qle_bool (abs_key y) (abs_key e)) eqn:Hle; [done|].
  cbn [List.filter] in *. rewrite IH.
  destruct (same_key c e) eqn:He; [|done].
  destruct (same_key c y) eqn:Hy; [|done].
  unfold same_key in *. apply Qeq_bool_iff in He, Hy.
  assert (Qle_bool (abs_key y) (abs_key e) = true); [|congruence].
  apply Qle_bool_iff. rewrite He, Hy. apply Qle_refl.
Qed.

Lemma sorted_abs_desc_stable c l :
  List.filter (same_key c) (sorted_abs_desc l) = List.filter (same_key c) l.
Proof.
  induction l as [|e l IH]; [done|]. cbn [sorted_abs_desc foldr].
  rewrite insert_desc_stable. cbn [List.filter]. fold (sorted_abs_desc l).
  by rewrite IH.
Qed.

(** ** The features selected *)

Lemma features_to_remove_length_le explanation k :
  (length (features_to_remove explanation k) <= length explanation)%nat.
Proof.
  unfold features_to_remove, items. rewrite length_map.
  etrans; [apply slice_to_length_le|]. by rewrite sorted_abs_desc_length.
Qed.

Lemma features_to_remove_length_nonneg explanation k :
  0 <= k -> (length (features_to_remove explanation k) <= Z.to_nat k)%nat.
Proof.
  intros Hk. unfold features_to_remove. rewrite length_map.
  by apply slice_to_length_nonneg.
Qed.

Lemma features_to_remove_top_k explanation k :
  0 <= k -> features_to_remove explanation k = top_k_spec explanation (Z.to_nat k).
Proof.
  intros Hk. unfold features_to_remove, top_k_spec, items. by rewrite slice_to_nonneg.
Qed.

Lemma features_to_remove_zero explanation : features_to_remove explanation 0 = [].
Proof. reflexivity. Qed.

Lemma positions_of_length names feats :
  (length (positions_of names feats) <= length feats)%nat.
Proof.
  unfold positions_of. induction feats as [|f feats IH]; [done|].
  change (omap (index_of names) (f :: feats))
    with (match index_of names f with
          | Some i => i :: omap (index_of names) feats
          | None => omap (index_of names) feats
          end).
  destruct (index_of names f); cbn [length]; lia.
Qed.

(** ** Claims about [fidelity_metric] *)

(** C1.  [fidelity_metric] returns the model's output on the original
    instance minus its output on the perturbed copy, the copy being the
    instance with zero at the positions of the first [k] feature identifiers
    in descending order of absolute importance (for [k >= 0] and identifiers
    that name positions of the instance).  For x = [2, 3, 5],
    f(x) = x[0] + 2*x[1] + 0*x[2], importance {f0: 2, f1: 6, f2: 0} and k = 1
    the result is 6, in whatever store the instance lives. *)
Theorem score_is_prediction_drop :
  (forall names model instance st x importance k,
     arrays st !! instance = Some x ->
     0 <= k ->
     (forall feature, feature ∈ top_k_spec importance (Z.to_nat k) ->
        exists idx, index_of names feature = Some idx ∧ (idx < length x)%nat) ->
     (fidelity_metric names model instance importance k st).1
     = Ok (score_spec names model x importance (Z.to_nat k)))
  ∧ (forall instance st,
       arrays st !! instance = Some Scenario.x ->
       (fidelity_metric Scenario.names Scenario.f instance Scenario.importance 1 st).1
       = Ok 6%Q).
Proof.
  split.
  - intros names model instance st x importance k Hx Hk Hres.
    rewrite (fidelity_metric_run _ _ _ _ _ _ _ Hx). simpl.
    unfold fidelity_value, score_spec.
    rewrite features_to_remove_top_k by done.
    by rewrite zero_features_ok.
  - intros instance st Hx.
    rewrite (fidelity_metric_run _ _ _ _ _ _ _ Hx). reflexivity.
Qed.

Lemma score_is_prediction_drop_witness :
  (fidelity_metric Scenario.names Scenario.f 0%nat Scenario.importance 1 Scenario.st0).1
  = Ok (score_spec Scenario.names Scenario.f Scenario.x Scenario.importance 1)
  ∧ (fidelity_metric Scenario.names Scenario.f 0%nat Scenario.importance 1 Scenario.st0).1
    = Ok 6%Q.
Proof.
  split.
  - apply (proj1 score_is_prediction_drop Scenario.names Scenario.f 0%nat Scenario.st0
             Scenario.x Scenario.importance 1).
    + reflexivity.
    + lia.
    + intros feature Hf. vm_compute in Hf.
      apply list_elem_of_singleton in Hf as ->.
      exists 1%nat. split; [reflexivity | simpl; lia].
  - apply (proj2 score_is_prediction_drop 0%nat Scenario.st0). reflexivity.
Defined.

(** C3.  The call leaves every array of the store as it was, the instance
    among them; the perturbed copy is a new array of the same length that
    agrees with the instance at every position that is not the position of a
    selected feature; the value returned is computed from that copy; and for
    [k >= 0] at most [k] positions are selected. *)
Theorem perturbation_frame names model instance st x importance k :
  arrays st !! instance = Some x ->
  let run := fidelity_metric names model instance importance k st in
  let selected := features_to_remove importance k in
  (forall l a, arrays st !! l = Some a -> arrays run.2 !! l = Some a)
  ∧ arrays run.2 !! instance = Some x
  ∧ arrays st !! perturbed_loc st = None
  ∧ exists x', arrays run.2 !! perturbed_loc st = Some x'
      ∧ length x' = length x
      ∧ (forall i, i ∉ positions_of names selected -> x' !! i = x !! i)
      ∧ (forall q, run.1 = Ok q -> q = (model x - model x')%Q)
      ∧ (0 <= k -> (length (positions_of names selected) <= Z.to_nat k)%nat).
Proof.
  intros Hx run selected. subst run.
  rewrite (fidelity_metric_run _ _ _ _ _ _ _ Hx). simpl.
  pose proof (perturbed_loc_fresh st) as Hp.
  destruct (baseline_loc_fresh st x) as [Hne Hb].
  assert (forall l a, arrays st !! l = Some a ->
            <[perturbed_loc st := (zero_features names selected x).2]>
              (<[baseline_loc st x := replicate (length x) 0%Q]>
                 (<[perturbed_loc st := x]> (arrays st))) !! l = Some a) as Hframe.
  { intros l a Hl. rewrite !lookup_insert_ne by congruence. done. }
  split; [exact Hframe|]. split; [by apply Hframe|]. split; [done|].
  exists (zero_features names selected x).2.
  split; [by rewrite lookup_insert_eq|].
  split; [apply zero_features_length|].
  split; [intros i Hi; by apply zero_features_frame|].
  split.
  - unfold fidelity_value. fold selected.
    destruct (zero_features names selected x) as [[[]|e] x']; simpl; congruence.
  - intros Hk. etrans; [apply positions_of_length|].
    by apply features_to_remove_length_nonneg.
Qed.

Lemma perturbation_frame_witness :
  let run := fidelity_metric Scenario.names Scenario.f 0%nat Scenario.importance 1 Scenario.st0 in
  let selected := features_to_remove Scenario.importance 1 in
  (forall l a, arrays Scenario.st0 !! l = Some a -> arrays run.2 !! l = Some a)
  ∧ arrays run.2 !! 0%nat = Some Scenario.x
  ∧ arrays Scenario.st0 !! perturbed_loc Scenario.st0 = None
  ∧ exists x', arrays run.2 !! perturbed_loc Scenario.st0 = Some x'
      ∧ length x' = length Scenario.x
      ∧ (forall i, i ∉ positions_of Scenario.names selected -> x' !! i = Scenario.x !! i)
      ∧ (forall q, run.1 = Ok q -> q = (Scenario.f Scenario.x - Scenario.f x')%Q)
      ∧ (0 <= 1 -> (length (positions_of Scenario.names selected) <= Z.to_nat 1)%nat).
Proof.
  apply (perturbation_frame Scenario.names Scenario.f 0%nat Scenario.st0 Scenario.x
           Scenario.importance 1).
  reflexivity.
Defined.

(** C5.  With [k = 0] the perturbed copy holds what the instance holds and
    the score is 0. *)
Theorem zero_features_zero_score names model instance st x importance :
  arrays st !! instance = Some x ->
  let run := fidelity_metric names model instance importance 0 st in
  arrays run.2 !! perturbed_loc st = Some x
  ∧ exists q, run.1 = Ok q ∧ (q == 0)%Q.
Proof.
  intros Hx run. subst run.
  rewrite (fidelity_metric_run _ _ _ _ _ _ _ Hx). simpl.
  unfold fidelity_value. rewrite features_to_remove_zero. simpl. split.
  - by rewrite lookup_insert_eq.
  - eexists. split; [reflexivity|]. apply Qplus_opp_r.
Qed.

Lemma zero_features_zero_score_witness :
  let run := fidelity_metric Scenario.names Scenario.f 0%nat Scenario.importance 0 Scenario.st0 in
  arrays run.2 !! perturbed_loc Scenario.st0 = Some Scenario.x
  ∧ exists q, run.1 = Ok q ∧ (q == 0)%Q.
Proof.
  apply (zero_features_zero_score Scenario.names Scenario.f 0%nat Scenario.st0 Scenario.x
           Scenario.importance).
  reflexivity.
Defined.

Lemma zero_features_ok_inv names feats : forall a a',
  zero_features names feats a = (Ok tt, a') ->
  forall feature, feature ∈ feats -> feature ∈ names.
Proof.
  induction feats as [|f rest IH]; intros a a' Hz feature Hin; simpl in Hz.
  - by apply elem_of_nil in Hin.
  - destruct (index_of names f) as [idx|] eqn:Hidx; [|done].
    destruct (decide (idx < length a)%nat); [|done].
    apply elem_of_cons in Hin as [->|Hin].
    + apply index_of_Some in Hidx. by eapply list_elem_of_lookup_2.
    + by eapply IH.
Qed.

(** C4 (as the code has it).  Only the selected features are looked up in
    [feature_names].  When every known feature has a position in the
    instance, the call raises [ValueError] if one of the selected features is
    not in [feature_names], and returns a number if all of them are. *)
Theorem unknown_selected_feature_raises names model instance st x importance k :
  arrays st !! instance = Some x ->
  (length names <= length x)%nat ->
  let r := (fidelity_metric names model instance importance k st).1 in
  ((exists feature, feature ∈ features_to_remove importance k ∧ feature ∉ names) ->
   r = Raise ValueError)
  ∧ ((forall feature, feature ∈ features_to_remove importance k -> feature ∈ names) ->
     exists q, r = Ok q).
Proof.
  intros Hx Hlen r. subst r.
  rewrite (fidelity_metric_run _ _ _ _ _ _ _ Hx). simpl. unfold fidelity_value.
  destruct (zero_features names (features_to_remove importance k) x)
    as [[[]|e] x'] eqn:Hz.
  - split; [|by eauto].
    intros (feature & Hin & Hnot). exfalso. apply Hnot.
    by eapply zero_features_ok_inv.
  - apply zero_features_raise in Hz as (f & Hf & Hcase). split.
    + intros _. destruct Hcase as [[-> _]|[_ (idx & Hidx & Hge)]]; [done|].
      apply index_of_Some, lookup_lt_Some in Hidx. lia.
    + intros Hall. exfalso.
      destruct Hcase as [[_ Hnone]|[_ (idx & Hidx & Hge)]].
      * apply index_of_None in Hnone. by apply Hnone, Hall.
      * apply index_of_Some, lookup_lt_Some in Hidx. lia.
Qed.

Lemma unknown_selected_feature_raises_witness :
  (fidelity_metric Scenario.names Scenario.f 0%nat Scenario.importance_unknown 2
     Scenario.st0).1 = Raise ValueError.
Proof.
  apply (unknown_selected_feature_raises Scenario.names Scenario.f 0%nat Scenario.st0
           Scenario.x Scenario.importance_unknown 2).
  - reflexivity.
  - simpl. lia.
  - exists "nonexistent"%string. split.
    + assert (features_to_remove Scenario.importance_unknown 2
              = ["f0"; "nonexistent"]%string) as -> by reflexivity.
      rewrite !elem_of_cons. by auto.
    + unfold Scenario.names. rewrite !elem_of_cons, elem_of_nil. naive_solver.
Defined.

(** C4, the claim as it was stated, fails: the mapping names "nonexistent",
    which is not a feature name, and with k = 1 the call returns 2. *)
Lemma unknown_feature_counterexample :
  "nonexistent"%string ∈ map fst Scenario.importance_unknown
  ∧ ("nonexistent"%string ∉ Scenario.names)
  ∧ (fidelity_metric Scenario.names Scenario.f 0%nat Scenario.importance_unknown 1
       Scenario.st0).1 = Ok 2%Q.
Proof.
  split; [|split].
  - simpl. rewrite !elem_of_cons. by auto.
  - unfold Scenario.names. rewrite !elem_of_cons, elem_of_nil. naive_solver.
  - reflexivity.
Qed.

(** C8 (as the code has it).  A negative [k] is a slice bound counted from
    the end: the call is the call with [max 0 (n + k)], [n] the number of
    entries of the mapping.  A [k] of [n] or more is the call with [n], which
    selects every entry. *)
Theorem k_outside_the_entries names model instance importance k :
  let n := Z.of_nat (length importance) in
  (k < 0 ->
   fidelity_metric names model instance importance k
   = fidelity_metric names model instance importance (Z.max 0 (n + k)))
  ∧ (n <= k ->
     fidelity_metric names model instance importance k
     = fidelity_metric names model instance importance n
     ∧ features_to_remove importance k = map fst (sorted_abs_desc importance)).
Proof.
  intros n. subst n. split.
  - intros Hk. unfold fidelity_metric, features_to_remove, items.
    rewrite (slice_to_negative _ k Hk). by rewrite sorted_abs_desc_length.
  - intros Hk. unfold fidelity_metric, features_to_remove, items.
    rewrite !slice_to_all by (rewrite sorted_abs_desc_length; lia). done.
Qed.

Lemma k_outside_the_entries_witness :
  fidelity_metric Scenario.names Scenario.f 0%nat Scenario.importance (-1)
  = fidelity_metric Scenario.names Scenario.f 0%nat Scenario.importance 2
  ∧ fidelity_metric Scenario.names Scenario.f 0%nat Scenario.importance 7
    = fidelity_metric Scenario.names Scenario.f 0%nat Scenario.importance 3.
Proof.
  split.
  - apply (proj1 (k_outside_the_entries Scenario.names Scenario.f 0%nat
                    Scenario.importance (-1))). lia.
  - apply (proj2 (k_outside_the_entries Scenario.names Scenario.f 0%nat
                    Scenario.importance 7)). simpl. lia.
Defined.

(** C8, the claim as it was stated, fails: with k = -1 the call raises
    nothing; it zeroes the two features of largest absolute score and
    returns 8. *)
Lemma negative_k_counterexample :
  -1 < 0
  ∧ (fidelity_metric Scenario.names Scenario.f 0%nat Scenario.importance (-1)
       Scenario.st0).1 = Ok 8%Q
  ∧ ~ (exists e, (fidelity_metric Scenario.names Scenario.f 0%nat Scenario.importance (-1)
                    Scenario.st0).1 = Raise e).
Proof.
  split; [lia|]. split; [reflexivity|]. intros [e He]. vm_compute in He. discriminate.
Qed.

(** ** The sort is the stable descending sort

    Two lists in descending key order with the same entries, in the same
    order, in every key class are the same list: a stable sort has one
    possible result, so [sorted_abs_desc] is what Python's [sorted]
    computes. *)

Lemma same_key_refl e : same_key (abs_key e) e = true.
Proof. unfold same_key. apply Qeq_bool_iff. reflexivity. Qed.

Lemma filter_same_key_head c e l l' :
  List.filter (same_key c) l = e :: l' -> e ∈ l ∧ same_key c e = true.
Proof.
  intros Hf. assert (In e (List.filter (same_key c) l)) as Hin by (rewrite Hf; by left).
  apply filter_In in Hin as [Hin Hk]. split; [by apply list_elem_of_In|done].
Qed.

Lemma descending_classes_eq l1 : forall l2,
  StronglySorted key_ge l1 -> StronglySorted key_ge l2 ->
  (forall c, List.filter (same_key c) l1 = List.filter (same_key c) l2) ->
  l1 = l2.
Proof.
  induction l1 as [|a t1 IH]; intros l2 Hs1 Hs2 Hcl.
  - destruct l2 as [|b t2]; [done|].
    specialize (Hcl (abs_key b)). cbn [List.filter] in Hcl.
    by rewrite same_key_refl in Hcl.
  - destruct l2 as [|b t2].
    { specialize (Hcl (abs_key a)). cbn [List.filter] in Hcl.
      by rewrite same_key_refl in Hcl. }
    apply StronglySorted_inv in Hs1 as [Hs1 Ha].
    apply StronglySorted_inv in Hs2 as [Hs2 Hb].
    rewrite Forall_forall in Ha, Hb.
    assert (same_key (abs_key a) b = true) as Hab.
    { destruct (same_key (abs_key a) b) eqn:Hab; [done|]. exfalso.
      pose proof (Hcl (abs_key a)) as Hca. cbn [List.filter] in Hca.
      rewrite same_key_refl, Hab in Hca. symmetry in Hca.
      apply filter_same_key_head in Hca as [Hca _].
      pose proof (Hcl (abs_key b)) as Hcb. cbn [List.filter] in Hcb.
      rewrite same_key_refl in Hcb.
      assert (same_key (abs_key b) a = false) as Hba.
      { unfold same_key in *. destruct (Qeq_bool (abs_key a) (abs_key b)) eqn:E; [|done].
        apply Qeq_bool_iff in E. symmetry in E. apply Qeq_bool_iff in E. congruence. }
      rewrite Hba in Hcb. apply filter_same_key_head in Hcb as [Hcb _].
      apply Hb in Hca. apply Ha in Hcb. unfold key_ge in *.
      assert (abs_key b == abs_key a)%Q as E by (by apply Qle_antisym).
      apply Qeq_bool_iff in E. unfold same_key in Hab. congruence. }
    assert (a = b) as <-.
    { specialize (Hcl (abs_key a)). cbn [List.filter] in Hcl.
      rewrite same_key_refl, Hab in Hcl. congruence. }
    f_equal. apply IH; [done..|].
    intros c. specialize (Hcl c). cbn [List.filter] in Hcl.
    destruct (same_key c a); congruence.
Qed.

Lemma stable_descending_sort_unique l l' :
  StronglySorted key_ge l' ->
  (forall c, List.filter (same_key c) l' = List.filter (same_key c) l) ->
  l' = sorted_abs_desc l.
Proof.
  intros Hs Hst. apply descending_classes_eq; [done|apply sorted_abs_desc_sorted|].
  intros c. by rewrite Hst, sorted_abs_desc_stable.
Qed.

(** C7.  The features selected are a function of the mapping, in its order,
    and of [k]: the mapping's entries are put in descending order of absolute
    score, entries of equal absolute score keeping their order.  The value
    returned depends on the contents of the instance only, not on the store
    or on where the instance lives in it; and the call changes no array of
    the store and asks nothing of the explainer. *)
Theorem score_deterministic_and_pure names model importance k :
  (sorted_abs_desc importance ≡ₚ importance
   ∧ StronglySorted key_ge (sorted_abs_desc importance)
   ∧ (forall c, List.filter (same_key c) (sorted_abs_desc importance)
                = List.filter (same_key c) importance)
   ∧ features_to_remove importance k
     = map fst (slice_to (sorted_abs_desc importance) k))
  ∧ (forall st1 st2 l1 l2 x,
       arrays st1 !! l1 = Some x -> arrays st2 !! l2 = Some x ->
       (fidelity_metric names model l1 importance k st1).1
       = (fidelity_metric names model l2 importance k st2).1)
  ∧ (forall st l x,
       arrays st !! l = Some x ->
       let st' := (fidelity_metric names model l importance k st).2 in
       requests st' = requests st
       ∧ (forall l' a, arrays st !! l' = Some a -> arrays st' !! l' = Some a)
       ∧ (fidelity_metric names model l importance k st').1
         = (fidelity_metric names model l importance k st).1).
Proof.
  assert (forall st l x l' a,
            arrays st !! l = Some x -> arrays st !! l' = Some a ->
            arrays (fidelity_metric names model l importance k st).2 !! l' = Some a)
    as Hframe.
  { intros st l x l' a Hx Hl'.
    rewrite (fidelity_metric_run _ _ _ _ _ _ _ Hx). simpl.
    pose proof (perturbed_loc_fresh st) as Hp.
    destruct (baseline_loc_fresh st x) as [Hne Hb].
    rewrite !lookup_insert_ne by congruence. done. }
  assert (forall st1 st2 l1 l2 x,
            arrays st1 !! l1 = Some x -> arrays st2 !! l2 = Some x ->
            (fidelity_metric names model l1 importance k st1).1
            = (fidelity_metric names model l2 importance k st2).1) as Hsame.
  { intros st1 st2 l1 l2 x H1 H2.
    by rewrite (fidelity_metric_run _ _ _ _ _ _ _ H1), (fidelity_metric_run _ _ _ _ _ _ _ H2). }
  split; [|split].
  - split; [apply sorted_abs_desc_perm|]. split; [apply sorted_abs_desc_sorted|].
    split; [intros c; apply sorted_abs_desc_stable|done].
  - exact Hsame.
  - intros st l x Hx st'. subst st'. split; [|split].
    + by rewrite (fidelity_metric_run _ _ _ _ _ _ _ Hx).
    + intros l' a Hl'. by eapply Hframe.
    + apply (Hsame _ _ _ _ x); [|done]. by eapply Hframe.
Qed.

Lemma score_deterministic_and_pure_witness :
  (fidelity_metric Scenario.names Scenario.f 0%nat Scenario.importance 1 Scenario.st0).1
  = (fidelity_metric Scenario.names Scenario.f 1%nat Scenario.importance 1
       (State {[ 1%nat := Scenario.x; 5%nat := [7]%Q ]} [])).1
  ∧ (let st' := (fidelity_metric Scenario.names Scenario.f 0%nat Scenario.importance 1
                   Scenario.st0).2 in
     requests st' = requests Scenario.st0
     ∧ (forall l' a, arrays Scenario.st0 !! l' = Some a -> arrays st' !! l' = Some a)
     ∧ (fidelity_metric Scenario.names Scenario.f 0%nat Scenario.importance 1 st').1
       = (fidelity_metric Scenario.names Scenario.f 0%nat Scenario.importance 1
            Scenario.st0).1).
Proof.
  split.
  - apply (proj1 (proj2 (score_deterministic_and_pure Scenario.names Scenario.f
                           Scenario.importance 1)) _ _ _ _ Scenario.x); reflexivity.
  - apply (proj2 (proj2 (score_deterministic_and_pure Scenario.names Scenario.f
                           Scenario.importance 1)) Scenario.st0 0%nat Scenario.x).
    reflexivity.
Defined.

(** ** Sums and the linear model *)

Lemma Qsum_acc l : forall acc, (fold_left Qplus l acc == acc + Qsum l)%Q.
Proof.
  unfold Qsum. induction l as [|a l IH]; intros acc; simpl.
  - ring.
  - rewrite (IH (acc + a)%Q), (IH (0 + a)%Q). ring.
Qed.

Lemma Qsum_cons a l : (Qsum (a :: l) == a + Qsum l)%Q.
Proof. unfold Qsum at 1. simpl. rewrite Qsum_acc. ring. Qed.

Lemma Qsum_app l1 l2 : (Qsum (l1 ++ l2) == Qsum l1 + Qsum l2)%Q.
Proof.
  induction l1 as [|a l1 IH]; simpl.
  - unfold Qsum at 2. simpl. ring.
  - rewrite !Qsum_cons, IH. ring.
Qed.

Lemma dot_zeros w : forall n, (dot w (replicate n 0%Q) == 0)%Q.
Proof.
  unfold dot. induction w as [|a w IH]; intros [|n]; simpl; try reflexivity.
  rewrite Qsum_cons, IH. ring.
Qed.

Lemma perturbed_spec_all positions (x : list Q) :
  (forall i, (i < length x)%nat -> i ∈ positions) ->
  perturbed_spec positions x = replicate (length x) 0%Q.
Proof.
  intros Hall. apply list_eq. intros j. unfold perturbed_spec.
  rewrite list_lookup_imap.
  destruct (decide (j < length x)%nat) as [Hlt|Hge].
  - rewrite lookup_replicate_2 by done.
    destruct (lookup_lt_is_Some_2 x j Hlt) as [v ->]. simpl.
    by rewrite bool_decide_eq_true_2 by auto.
  - rewrite lookup_ge_None_2 by lia. symmetry. apply lookup_replicate_None. lia.
Qed.

Lemma map_fst_zip {A B} (l : list A) (k : list B) :
  (length l <= length k)%nat -> map fst (zip l k) = l.
Proof.
  revert k. induction l as [|a l IH]; intros [|b k] Hlen; simpl in *; try done; try lia.
  f_equal. apply IH. lia.
Qed.

(** C6.  For a linear model w . x, feature names that are distinct and one
    per position, the importance mapping that gives each feature the score
    w[i] * x[i], and k = len(x), every position is zeroed and the score is
    f(x) - f(0) = f(x). *)
Theorem linear_model_full_removal names w x instance st :
  arrays st !! instance = Some x ->
  NoDup names ->
  length names = length x ->
  length w = length x ->
  exists q,
    (fidelity_metric names (dot w) instance (linear_importance names w x)
       (Z.of_nat (length x)) st).1 = Ok q
    ∧ (q == dot w x - dot w (replicate (length x) 0%Q))%Q
    ∧ (q == dot w x)%Q.
Proof.
  intros Hx Hnd Hnames Hw.
  set (imp := linear_importance names w x).
  assert (length imp = length x) as Hlen.
  { subst imp. unfold linear_importance. rewrite !length_zip_with. lia. }
  assert (features_to_remove imp (Z.of_nat (length x)) = map fst (sorted_abs_desc imp))
    as Hfeat.
  { unfold features_to_remove, items. rewrite slice_to_all; [done|].
    rewrite sorted_abs_desc_length. lia. }
  assert (map fst (sorted_abs_desc imp) ≡ₚ names) as Hperm.
  { rewrite (Permutation_map fst (sorted_abs_desc_perm imp)).
    subst imp. unfold linear_importance. rewrite map_fst_zip; [done|].
    rewrite length_zip_with. lia. }
  rewrite (fidelity_metric_run _ _ _ _ _ _ _ Hx). simpl.
  unfold fidelity_value. rewrite Hfeat.
  rewrite zero_features_ok.
  - rewrite perturbed_spec_all.
    + eexists. split; [reflexivity|]. split; [reflexivity|].
      rewrite dot_zeros. ring.
    + intros i Hi. unfold positions_of. apply list_elem_of_omap.
      destruct (lookup_lt_is_Some_2 names i) as [f Hf]; [lia|].
      exists f. split.
      * rewrite Hperm. by eapply list_elem_of_lookup_2.
      * by apply index_of_NoDup.
  - intros feature Hin. rewrite Hperm in Hin.
    destruct (index_of names feature) as [idx|] eqn:Hidx.
    + exists idx. split; [done|].
      apply index_of_Some, lookup_lt_Some in Hidx. lia.
    + apply index_of_None in Hidx. done.
Qed.

Lemma linear_model_full_removal_witness :
  exists q,
    (fidelity_metric Scenario.names (dot [1; 2; 0]%Q) 0%nat
       (linear_importance Scenario.names [1; 2; 0]%Q Scenario.x)
       (Z.of_nat (length Scenario.x)) Scenario.st0).1 = Ok q
    ∧ (q == dot [1; 2; 0]%Q Scenario.x - dot [1; 2; 0]%Q (replicate (length Scenario.x) 0%Q))%Q
    ∧ (q == dot [1; 2; 0]%Q Scenario.x)%Q.
Proof.
  apply (linear_model_full_removal Scenario.names [1; 2; 0]%Q Scenario.x 0%nat Scenario.st0).
  - reflexivity.
  - unfold Scenario.names. repeat constructor; rewrite ?elem_of_cons, ?elem_of_nil; naive_solver.
  - reflexivity.
  - reflexivity.
Defined.

(** ** The loop of [compute_average_fidelity] *)

Section AverageLoop.

Variable names : list string.
Variable model : list Q -> Q.
Variable X : list (list Q).
Variable explainer : list Q -> Z -> list (string * Q).
Variable k : Z.

(** The body of the loop, as it stands in [compute_average_fidelity]. *)
Local Abbreviation body := (fun (i : nat) (fidelities : list Q) =>
  instance <- row_copy X i ;;
  exp <- explain_instance explainer instance 5 ;;
  let exp_dict := dict_of_pairs exp in
  fidelity <- fidelity_metric names model instance exp_dict k ;;
  ret (fidelities ++ [fidelity])).

(** One iteration: its value, what it adds to the log, and that it changes
    no array the store had. *)
Lemma body_run i acc st :
  exists st',
    body i acc st
    = (match sample_value names model X explainer k i with
       | Ok fidelity => Ok (acc ++ [fidelity])
       | Raise e => Raise e
       end, st')
    ∧ requests st'
      = requests st ++ match X !! i with Some row => [(row, 5)] | None => [] end
    ∧ (forall l a, arrays st !! l = Some a -> arrays st' !! l = Some a).
Proof.
  unfold sample_value, row_copy. destruct (X !! i) as [row|] eqn:Hrow.
  - pose proof (perturbed_loc_fresh st) as Hp.
    set (l := perturbed_loc st) in *.
    set (st1 := State (<[l := row]> (arrays st)) (requests st)).
    set (st2 := State (arrays st1) (requests st1 ++ [(row, 5)])).
    assert (arrays st1 !! l = Some row) as H1 by (subst st1; simpl; by rewrite lookup_insert_eq).
    assert (arrays st2 !! l = Some row) as H2 by done.
    rewrite (bind_ok _ _ st l st1) by apply alloc_run.
    rewrite (bind_ok _ _ st1 (explainer row 5) st2).
    2:{ unfold explain_instance. by rewrite (bind_ok _ _ _ _ _ (read_run _ _ _ H1)). }
    pose proof (fidelity_metric_run names model l (dict_of_pairs (explainer row 5)) k st2 row H2)
      as Hrun.
    destruct (baseline_loc_fresh st2 row) as [Hne Hb].
    pose proof (perturbed_loc_fresh st2) as Hp2.
    eexists. split; [|split].
    + destruct (fidelity_value names model row (dict_of_pairs (explainer row 5)) k) as [q|e].
      * by rewrite (bind_ok _ _ _ _ _ Hrun).
      * by rewrite (bind_raise _ _ _ _ _ Hrun).
    + reflexivity.
    + intros l' a Hl'. simpl.
      assert (arrays st2 !! l' = Some a) as Hl2.
      { subst st2 st1; simpl. rewrite lookup_insert_ne by congruence. done. }
      rewrite !lookup_insert_ne by congruence. done.
  - exists st. split; [done|]. split; [by rewrite app_nil_r|done].
Qed.

(** The loop over any list of indices. *)
Lemma for_fold_run idxs : forall acc st,
  exists st',
    for_fold idxs body acc st = (samples_value names model X explainer k idxs acc, st')
    ∧ requests st'
      = requests st ++ map (fun row => (row, 5)) (rows_explained names model X explainer k idxs)
    ∧ (forall l a, arrays st !! l = Some a -> arrays st' !! l = Some a).
Proof.
  induction idxs as [|i rest IH]; intros acc st; simpl.
  - exists st. split; [done|]. split; [by rewrite app_nil_r|done].
  - destruct (body_run i acc st) as (st1 & Hbody & Hreq & Hframe).
    destruct (sample_value names model X explainer k i) as [q|e] eqn:Hv.
    + destruct (IH (acc ++ [q]) st1) as (st2 & Hloop & Hreq2 & Hframe2).
      exists st2. split; [by rewrite (bind_ok _ _ _ _ _ Hbody)|]. split; [|by auto].
      rewrite Hreq2, Hreq. unfold sample_value in Hv.
      destruct (X !! i) as [row|]; [|done]. simpl. by rewrite <- app_assoc.
    + exists st1. split; [by rewrite (bind_raise _ _ _ _ _ Hbody)|]. split; [|done].
      rewrite Hreq. destruct (X !! i) as [row|]; simpl; done.
Qed.

(** The loop over consecutive rows that all score. *)
Lemma samples_value_scores rows scores :
  Forall2 (row_score names model explainer k) rows scores ->
  forall i tail acc,
  (forall j row, rows !! j = Some row -> X !! (i + j)%nat = Some row) ->
  samples_value names model X explainer k (seq i (length rows) ++ tail) acc
  = samples_value names model X explainer k tail (acc ++ scores).
Proof.
  induction 1 as [|row s rows scores Hs _ IH]; intros i tail acc HX; simpl.
  - by rewrite app_nil_r.
  - unfold sample_value. rewrite <- (Nat.add_0_r i) at 1.
    rewrite (HX 0%nat row eq_refl). unfold row_score in Hs. rewrite Hs.
    rewrite IH.
    + by rewrite <- app_assoc.
    + intros j r Hj. replace (S i + j)%nat with (i + S j)%nat by lia. by apply HX.
Qed.

Lemma compute_average_fidelity_run num_samples st :
  exists st',
    compute_average_fidelity names model X explainer num_samples k st
    = (match samples_value names model X explainer k (range num_samples) [] with
       | Ok fidelities => Ok (np_mean fidelities)
       | Raise e => Raise e
       end, st')
    ∧ requests st'
      = requests st ++ map (fun row => (row, 5))
                           (rows_explained names model X explainer k (range num_samples))
    ∧ (forall l a, arrays st !! l = Some a -> arrays st' !! l = Some a).
Proof.
  unfold compute_average_fidelity.
  destruct (for_fold_run (range num_samples) [] st) as (st' & Hloop & Hreq & Hframe).
  exists st'. split; [|done].
  destruct (samples_value names model X explainer k (range num_samples) []).
  - by rewrite (bind_ok _ _ _ _ _ Hloop).
  - by rewrite (bind_raise _ _ _ _ _ Hloop).
Qed.

End AverageLoop.

(** ** Claims about [compute_average_fidelity] *)

Lemma dict_setitem_length d key v : (length (dict_setitem d key v) <= S (length d))%nat.
Proof.
  induction d as [|[k' v'] d IH]; simpl; [lia|].
  destruct (decide (k' = key)); simpl; lia.
Qed.

Lemma dict_of_pairs_length pairs : (length (dict_of_pairs pairs) <= length pairs)%nat.
Proof.
  unfold dict_of_pairs.
  assert (forall d, (length (fold_left (fun d kv => dict_setitem d kv.1 kv.2) pairs d)
                     <= length d + length pairs)%nat) as Hgen.
  { induction pairs as [|kv pairs IH]; intros d; simpl; [lia|].
    etrans; [apply IH|]. pose proof (dict_setitem_length d kv.1 kv.2). lia. }
  apply (Hgen []).
Qed.

(** C2 (as the code has it).  When there are at least [num_samples]
    instances and [num_samples >= 1], the result is the arithmetic mean of
    the scores of the first [num_samples] of them; three instances scoring 1,
    2 and 3 give 2.  When there are fewer instances than [num_samples] and
    each of them scores, the call raises [IndexError]. *)
Theorem average_of_first_samples names model X explainer num_samples k st :
  (forall scores,
     0 < num_samples ->
     (Z.to_nat num_samples <= length X)%nat ->
     Forall2 (row_score names model explainer k) (take (Z.to_nat num_samples) X) scores ->
     (compute_average_fidelity names model X explainer num_samples k st).1
     = Ok (Real (Qsum scores / inject_Z num_samples)))
  ∧ (forall scores,
       Z.of_nat (length X) < num_samples ->
       Forall2 (row_score names model explainer k) X scores ->
       (compute_average_fidelity names model X explainer num_samples k st).1
       = Raise IndexError)
  ∧ (forall r1 r2 r3 s1 s2 s3,
       X = [r1; r2; r3] -> num_samples = 3 ->
       row_score names model explainer k r1 s1 ->
       row_score names model explainer k r2 s2 ->
       row_score names model explainer k r3 s3 ->
       (s1 == 1)%Q -> (s2 == 2)%Q -> (s3 == 3)%Q ->
       exists q,
         (compute_average_fidelity names model X explainer num_samples k st).1
         = Ok (Real q) ∧ (q == 2)%Q).
Proof.
  destruct (compute_average_fidelity_run names model X explainer k num_samples st)
    as (st' & -> & _ & _). simpl.
  assert (forall scores,
     0 < num_samples ->
     (Z.to_nat num_samples <= length X)%nat ->
     Forall2 (row_score names model explainer k) (take (Z.to_nat num_samples) X) scores ->
     match samples_value names model X explainer k (range num_samples) [] with
     | Ok fidelities => Ok (np_mean fidelities)
     | Raise e => Raise e
     end = Ok (Real (Qsum scores / inject_Z num_samples))) as Hmean.
  { intros scores Hpos Hlen Hscores.
    pose proof (Forall2_length _ _ _ Hscores) as Hl. rewrite length_take in Hl.
    unfold range. replace (Z.to_nat num_samples)
      with (length (take (Z.to_nat num_samples) X)) at 1 by (rewrite length_take; lia).
    rewrite <- (app_nil_r (seq _ _)).
    rewrite (samples_value_scores _ _ _ _ _ _ _ Hscores).
    - simpl. destruct scores as [|s scores]; [simpl in Hl; lia|].
      unfold np_mean. do 4 f_equal. lia.
    - intros j row Hj. simpl. by apply lookup_take_Some in Hj as [Hj _]. }
  split; [exact Hmean|]. split.
  - intros scores Hshort Hscores. unfold range.
    replace (Z.to_nat num_samples)
      with (length X + S (Z.to_nat num_samples - S (length X)))%nat by lia.
    rewrite seq_app. rewrite (samples_value_scores _ _ _ _ _ _ _ Hscores) by done.
    simpl. unfold sample_value. by rewrite lookup_ge_None_2 by lia.
  - intros r1 r2 r3 s1 s2 s3 -> -> H1 H2 H3 E1 E2 E3.
    eexists. split.
    + apply (Hmean [s1; s2; s3]); [lia|simpl; lia|]. simpl. by repeat constructor.
    + unfold Qsum. simpl. rewrite E1, E2, E3. reflexivity.
Qed.

Lemma average_of_first_samples_witness :
  (compute_average_fidelity Scenario.names Scenario.f Scenario.X3 Scenario.explain_f0
     2 1 Scenario.st_empty).1 = Ok (Real (Qsum [1; 2]%Q / inject_Z 2))
  ∧ (compute_average_fidelity Scenario.names Scenario.f Scenario.X3 Scenario.explain_f0
       4 1 Scenario.st_empty).1 = Raise IndexError
  ∧ exists q,
      (compute_average_fidelity Scenario.names Scenario.f Scenario.X3 Scenario.explain_f0
         3 1 Scenario.st_empty).1 = Ok (Real q) ∧ (q == 2)%Q.
Proof.
  split; [|split].
  - apply (proj1 (average_of_first_samples Scenario.names Scenario.f Scenario.X3
                    Scenario.explain_f0 2 1 Scenario.st_empty) [1; 2]%Q).
    + lia.
    + simpl. lia.
    + repeat constructor.
  - apply (proj1 (proj2 (average_of_first_samples Scenario.names Scenario.f Scenario.X3
                           Scenario.explain_f0 4 1 Scenario.st_empty)) [1; 2; 3]%Q).
    + simpl. lia.
    + repeat constructor.
  - apply (proj2 (proj2 (average_of_first_samples Scenario.names Scenario.f Scenario.X3
                           Scenario.explain_f0 3 1 Scenario.st_empty))
             [1; 0; 0]%Q [2; 0; 0]%Q [3; 0; 0]%Q 1%Q 2%Q 3%Q);
      reflexivity.
Defined.

(** C2, the claim as it was stated, fails: with one instance and
    num_samples = 2 the call does not return the score of the one instance;
    it raises [IndexError]. *)
Lemma short_sequence_counterexample :
  row_score Scenario.names Scenario.f Scenario.explain_f0 1 [1; 0; 0]%Q 1%Q
  ∧ (compute_average_fidelity Scenario.names Scenario.f [[1; 0; 0]%Q] Scenario.explain_f0
       1 1 Scenario.st_empty).1 = Ok (Real 1%Q)
  ∧ (compute_average_fidelity Scenario.names Scenario.f [[1; 0; 0]%Q] Scenario.explain_f0
       2 1 Scenario.st_empty).1 = Raise IndexError.
Proof. split; [|split]; reflexivity. Qed.

(** C9 (as the code has it).  With [num_samples <= 0] the loop does not run
    and the call returns NaN, the mean of no scores, raising nothing and
    leaving the store as it was, whatever the instances are.  With
    [num_samples >= 1] and no instance the call raises [IndexError]. *)
Theorem average_of_no_samples names model X explainer num_samples k st :
  (num_samples <= 0 ->
   compute_average_fidelity names model X explainer num_samples k st = (Ok NaN, st))
  ∧ (0 < num_samples -> X = [] ->
     compute_average_fidelity names model X explainer num_samples k st
     = (Raise IndexError, st)).
Proof.
  split.
  - intros Hn. unfold compute_average_fidelity, range.
    replace (Z.to_nat num_samples) with 0%nat by lia. reflexivity.
  - intros Hn ->. unfold compute_average_fidelity, range.
    replace (Z.to_nat num_samples) with (S (Z.to_nat num_samples - 1)) by lia.
    reflexivity.
Qed.

Lemma average_of_no_samples_witness :
  compute_average_fidelity Scenario.names Scenario.f Scenario.X3 Scenario.explain_f0
    0 1 Scenario.st_empty = (Ok NaN, Scenario.st_empty)
  ∧ compute_average_fidelity Scenario.names Scenario.f [] Scenario.explain_f0
      2 1 Scenario.st_empty = (Raise IndexError, Scenario.st_empty).
Proof.
  split.
  - apply (proj1 (average_of_no_samples Scenario.names Scenario.f Scenario.X3
                    Scenario.explain_f0 0 1 Scenario.st_empty)). lia.
  - apply (proj2 (average_of_no_samples Scenario.names Scenario.f []
                    Scenario.explain_f0 2 1 Scenario.st_empty)); [lia|reflexivity].
Defined.

(** C9, the claim as it was stated, fails: with num_samples = 0 the call
    raises nothing, for three instances and for none; it returns NaN. *)
Lemma zero_samples_counterexample :
  (compute_average_fidelity Scenario.names Scenario.f Scenario.X3 Scenario.explain_f0
     0 1 Scenario.st_empty).1 = Ok NaN
  ∧ (compute_average_fidelity Scenario.names Scenario.f [] Scenario.explain_f0
       0 1 Scenario.st_empty).1 = Ok NaN
  ∧ ~ (exists e, (compute_average_fidelity Scenario.names Scenario.f Scenario.X3
                    Scenario.explain_f0 0 1 Scenario.st_empty).1 = Raise e).
Proof.
  split; [reflexivity|]. split; [reflexivity|]. intros [e He]. vm_compute in He. discriminate.
Qed.

(** C10 (as the code has it).  Every request the call makes of the
    explainer asks for 5 features, whatever [num_features] is: the log grows
    by one entry (row, 5) per row explained.  With an explainer that answers
    with no more entries than it is asked for, the mapping of a row has at
    most 5 entries and at most 5 features are selected, and for
    [num_features >= 0] at most [min num_features 5]. *)
Theorem explainer_asked_for_five names model X explainer num_samples num_features st :
  let run := compute_average_fidelity names model X explainer num_samples num_features st in
  requests run.2
  = requests st ++ map (fun row => (row, 5))
                       (rows_explained names model X explainer num_features
                          (range num_samples))
  ∧ ((forall row n, (length (explainer row n) <= Z.to_nat n)%nat) ->
     forall row,
       let exp_dict := dict_of_pairs (explainer row 5) in
       (length exp_dict <= 5)%nat
       ∧ (length (features_to_remove exp_dict num_features) <= 5)%nat
       ∧ (0 <= num_features ->
          (length (features_to_remove exp_dict num_features)
           <= Z.to_nat (Z.min num_features 5))%nat)).
Proof.
  intros run. subst run.
  destruct (compute_average_fidelity_run names model X explainer num_features num_samples st)
    as (st' & -> & Hreq & _). simpl.
  split; [exact Hreq|].
  intros Hcontract row. set (exp_dict := dict_of_pairs (explainer row 5)).
  assert (length exp_dict <= 5)%nat as Hlen.
  { subst exp_dict. etrans; [apply dict_of_pairs_length|]. apply (Hcontract row 5). }
  split; [done|].
  pose proof (features_to_remove_length_le exp_dict num_features) as Hle.
  split; [lia|].
  intros Hk. pose proof (features_to_remove_length_nonneg exp_dict num_features Hk). lia.
Qed.

Lemma explainer_asked_for_five_witness :
  requests (compute_average_fidelity Scenario.names5 Scenario.f5 [Scenario.x5]
              Scenario.explain5 1 7 Scenario.st_empty).2
  = [(Scenario.x5, 5)]
  ∧ (let exp_dict := dict_of_pairs (Scenario.explain5 Scenario.x5 5) in
     (length exp_dict <= 5)%nat
     ∧ (length (features_to_remove exp_dict 7) <= 5)%nat
     ∧ (0 <= 7 ->
        (length (features_to_remove exp_dict 7) <= Z.to_nat (Z.min 7 5))%nat)).
Proof.
  split.
  - apply (proj1 (explainer_asked_for_five Scenario.names5 Scenario.f5 [Scenario.x5]
                    Scenario.explain5 1 7 Scenario.st_empty)).
  - apply (proj2 (explainer_asked_for_five Scenario.names5 Scenario.f5 [Scenario.x5]
                    Scenario.explain5 1 7 Scenario.st_empty)).
    intros row n. unfold Scenario.explain5. rewrite length_take. lia.
Defined.

(** C10, the claim as it was stated, fails for a negative [num_features]:
    with num_features = -1 and an explainer that answers with five entries,
    four features are selected and zeroed in the perturbed copy, which is
    more than min(-1, 5). *)
Lemma negative_num_features_counterexample :
  let run := compute_average_fidelity Scenario.names5 Scenario.f5 [Scenario.x5]
               Scenario.explain5 1 (-1) Scenario.st_empty in
  (forall row n, (length (Scenario.explain5 row n) <= Z.to_nat n)%nat)
  ∧ run.1 = Ok (Real 10%Q)
  ∧ requests run.2 = [(Scenario.x5, 5)]
  ∧ arrays run.2 !! 1%nat = Some [0; 0; 0; 0; 5]%Q
  ∧ length (features_to_remove (dict_of_pairs (Scenario.explain5 Scenario.x5 5)) (-1)) = 4%nat
  ∧ ~ (4 <= Z.min (-1) 5).
Proof.
  split; [|split; [|split; [|split; [|split]]]]; try reflexivity.
  - intros row n. unfold Scenario.explain5. rewrite length_take. lia.
  - lia.
Qed.

(** * Further properties of the code *)

(** ** Outcome of [fidelity_metric] *)

Lemma zero_features_ok_resolves names feats : forall a a',
  zero_features names feats a = (Ok tt, a') ->
  forall feature, feature ∈ feats ->
  exists idx, index_of names feature = Some idx ∧ (idx < length a)%nat.
Proof.
  induction feats as [|f rest IH]; intros a a' Hz feature Hin; simpl in Hz.
  - by apply elem_of_nil in Hin.
  - destruct (index_of names f) as [idx|] eqn:Hidx; [|done].
    destruct (decide (idx < length a)%nat) as [Hlt|]; [|done].
    apply elem_of_cons in Hin as [->|Hin]; [by eauto|].
    destruct (IH _ _ Hz feature Hin) as (j & Hj & Hlen).
    rewrite length_insert in Hlen. by eauto.
Qed.

Lemma fidelity_value_ok names model x explanation k q :
  fidelity_value names model x explanation k = Ok q ->
  zero_features names (features_to_remove explanation k) x
  = (Ok tt, perturbed_spec (positions_of names (features_to_remove explanation k)) x)
  ∧ q = (model x
         - model (perturbed_spec (positions_of names (features_to_remove explanation k)) x))%Q.
Proof.
  unfold fidelity_value.
  destruct (zero_features names (features_to_remove explanation k) x)
    as [[[]|e] x'] eqn:Hz; [|done].
  intros [= <-].
  pose proof (zero_features_ok names _ x (zero_features_ok_resolves _ _ _ _ Hz)) as Hok.
  rewrite Hz in Hok. injection Hok as ->. done.
Qed.

(** X1.  [fidelity_metric] returns a number exactly when every selected
    feature is a feature name whose position lies inside the instance.  When
    it raises [ValueError] a selected feature is not a feature name; when it
    raises [IndexError] a selected feature has a position past the end of
    the instance. *)
Theorem fidelity_metric_outcome names model instance st x explanation k :
  arrays st !! instance = Some x ->
  let r := (fidelity_metric names model instance explanation k st).1 in
  let selected := features_to_remove explanation k in
  ((exists q, r = Ok q) <->
   (forall feature, feature ∈ selected ->
      exists idx, index_of names feature = Some idx ∧ (idx < length x)%nat))
  ∧ (r = Raise ValueError -> exists feature, feature ∈ selected ∧ feature ∉ names)
  ∧ (r = Raise IndexError ->
     exists feature idx,
       feature ∈ selected ∧ index_of names feature = Some idx ∧ (length x <= idx)%nat)
  ∧ r <> Raise Unallocated.
Proof.
  intros Hx r selected. subst r.
  rewrite (fidelity_metric_run _ _ _ _ _ _ _ Hx). simpl. unfold fidelity_value.
  fold selected.
  destruct (zero_features names selected x) as [[[]|e] x'] eqn:Hz.
  - split; [|by repeat split].
    split; [intros _; by eapply zero_features_ok_resolves|by eauto].
  - pose proof (zero_features_raise _ _ _ _ _ Hz) as (f & Hf & Hcase).
    split; [|split; [|split]].
    + split; [by intros [q Hq]|].
      intros Hall. rewrite (zero_features_ok _ _ _ Hall) in Hz. done.
    + intros [= ->]. destruct Hcase as [[_ Hnone]|[? _]]; [|done].
      exists f. split; [done|]. by apply index_of_None.
    + intros [= ->]. destruct Hcase as [[? _]|[_ (idx & Hidx & Hge)]]; [done|].
      by exists f, idx.
    + destruct Hcase as [[-> _]|[-> _]]; done.
Qed.

Lemma fidelity_metric_outcome_witness :
  let r := (fidelity_metric Scenario.names Scenario.f 0%nat Scenario.importance_unknown 2
              Scenario.st0).1 in
  let selected := features_to_remove Scenario.importance_unknown 2 in
  ((exists q, r = Ok q) <->
   (forall feature, feature ∈ selected ->
      exists idx, index_of Scenario.names feature = Some idx
                  ∧ (idx < length Scenario.x)%nat))
  ∧ (r = Raise ValueError -> exists feature, feature ∈ selected ∧ feature ∉ Scenario.names)
  ∧ (r = Raise IndexError ->
     exists feature idx,
       feature ∈ selected ∧ index_of Scenario.names feature = Some idx
       ∧ (length Scenario.x <= idx)%nat)
  ∧ r <> Raise Unallocated.
Proof.
  apply (fidelity_metric_outcome Scenario.names Scenario.f 0%nat Scenario.st0 Scenario.x
           Scenario.importance_unknown 2).
  reflexivity.
Defined.

(** X2.  When [fidelity_metric] returns, for any [k], negative ones
    included, the perturbed copy holds 0 at the position of every selected
    feature and the instance's value everywhere else, and the value returned
    is the model's output on the instance minus its output on that copy. *)
Theorem selected_positions_zeroed names model instance st x explanation k q :
  arrays st !! instance = Some x ->
  (fidelity_metric names model instance explanation k st).1 = Ok q ->
  let st' := (fidelity_metric names model instance explanation k st).2 in
  let selected := features_to_remove explanation k in
  exists x',
    arrays st' !! perturbed_loc st = Some x'
    ∧ x' = perturbed_spec (positions_of names selected) x
    ∧ (forall feature idx,
         feature ∈ selected -> index_of names feature = Some idx -> x' !! idx = Some 0%Q)
    ∧ (forall i, i ∉ positions_of names selected -> x' !! i = x !! i)
    ∧ q = (model x - model x')%Q.
Proof.
  intros Hx. rewrite (fidelity_metric_run _ _ _ _ _ _ _ Hx). simpl. intros Hq.
  apply fidelity_value_ok in Hq as [Hz ->]. rewrite Hz. simpl.
  eexists. split; [by rewrite lookup_insert_eq|]. split; [done|].
  split; [|split; [|done]].
  - intros feature idx Hin Hidx.
    destruct (zero_features_ok_resolves _ _ _ _ Hz feature Hin) as (j & Hj & Hlt).
    assert (j = idx) as -> by congruence.
    unfold perturbed_spec. rewrite list_lookup_imap.
    destruct (lookup_lt_is_Some_2 x idx Hlt) as [v ->]. simpl.
    rewrite bool_decide_eq_true_2; [done|].
    unfold positions_of. apply list_elem_of_omap. by eauto.
  - intros i Hi. unfold perturbed_spec. rewrite list_lookup_imap.
    destruct (x !! i); [simpl|done]. by rewrite bool_decide_eq_false_2.
Qed.

Lemma selected_positions_zeroed_witness :
  let st' := (fidelity_metric Scenario.names Scenario.f 0%nat Scenario.importance (-1)
                Scenario.st0).2 in
  let selected := features_to_remove Scenario.importance (-1) in
  exists x',
    arrays st' !! perturbed_loc Scenario.st0 = Some x'
    ∧ x' = perturbed_spec (positions_of Scenario.names selected) Scenario.x
    ∧ (forall feature idx,
         feature ∈ selected -> index_of Scenario.names feature = Some idx ->
         x' !! idx = Some 0%Q)
    ∧ (forall i, i ∉ positions_of Scenario.names selected -> x' !! i = Scenario.x !! i)
    ∧ 8%Q = (Scenario.f Scenario.x - Scenario.f x')%Q.
Proof.
  apply (selected_positions_zeroed Scenario.names Scenario.f 0%nat Scenario.st0 Scenario.x
           Scenario.importance (-1) 8%Q); reflexivity.
Defined.

Lemma perturbed_spec_already_zero positions (x : list Q) :
  (forall i, i ∈ positions -> x !! i = Some 0%Q) ->
  perturbed_spec positions x = x.
Proof.
  intros Hzero. apply list_eq. intros j. unfold perturbed_spec.
  rewrite list_lookup_imap. destruct (x !! j) as [v|] eqn:Hj; [simpl|done].
  case_bool_decide as Hin; [|done].
  specialize (Hzero j Hin). congruence.
Qed.

(** X3.  When the instance is already 0 at the position of every selected
    feature, the perturbed copy holds what the instance holds and the score
    is 0, whatever the model. *)
Theorem already_at_baseline names model instance st x explanation k :
  arrays st !! instance = Some x ->
  (forall feature, feature ∈ features_to_remove explanation k ->
     exists idx, index_of names feature = Some idx ∧ x !! idx = Some 0%Q) ->
  let run := fidelity_metric names model instance explanation k st in
  arrays run.2 !! perturbed_loc st = Some x
  ∧ exists q, run.1 = Ok q ∧ (q == 0)%Q.
Proof.
  intros Hx Hzero run. subst run.
  rewrite (fidelity_metric_run _ _ _ _ _ _ _ Hx). simpl. unfold fidelity_value.
  rewrite zero_features_ok.
  2:{ intros feature Hin. destruct (Hzero feature Hin) as (idx & Hidx & Hv).
      exists idx. split; [done|]. by eapply lookup_lt_Some. }
  rewrite perturbed_spec_already_zero.
  2:{ intros i Hi. unfold positions_of in Hi.
      apply list_elem_of_omap in Hi as (feature & Hin & Hidx).
      destruct (Hzero feature Hin) as (idx & Hidx' & Hv). congruence. }
  simpl. split; [by rewrite lookup_insert_eq|].
  eexists. split; [reflexivity|]. apply Qplus_opp_r.
Qed.

Lemma already_at_baseline_witness :
  let run := fidelity_metric Scenario.names Scenario.f 0%nat Scenario.importance 1
               (State {[ 0%nat := [2; 0; 5]%Q ]} []) in
  arrays run.2 !! perturbed_loc (State {[ 0%nat := [2; 0; 5]%Q ]} []) = Some [2; 0; 5]%Q
  ∧ exists q, run.1 = Ok q ∧ (q == 0)%Q.
Proof.
  apply (already_at_baseline Scenario.names Scenario.f 0%nat
           (State {[ 0%nat := [2; 0; 5]%Q ]} []) [2; 0; 5]%Q Scenario.importance 1).
  - reflexivity.
  - intros feature Hin.
    assert (features_to_remove Scenario.importance 1 = ["f1"]%string) as Hsel by reflexivity.
    rewrite Hsel in Hin. apply list_elem_of_singleton in Hin as ->.
    exists 1%nat. split; reflexivity.
Defined.

(** ** What the selection depends on *)

Lemma Qabs_positive c : ~ (c == 0)%Q -> (0 < Qabs c)%Q.
Proof.
  intros Hc. pose proof (Qabs_nonneg c) as Hn.
  apply Qle_lteq in Hn as [Hlt|Heq]; [done|].
  exfalso. apply Hc.
  assert (Qabs c <= 0)%Q as Hle by (rewrite <- Heq; apply Qle_refl).
  apply Qabs_Qle_condition in Hle as [H1 H2]. apply Qle_antisym; [done|].
  by rewrite <- (Qopp_involutive 0)%Q.
Qed.

Lemma Qle_bool_abs_scale c a b :
  ~ (c == 0)%Q ->
  Qle_bool (Qabs (c * a)) (Qabs (c * b)) = Qle_bool (Qabs a) (Qabs b).
Proof.
  intros Hc. apply Bool.eq_iff_eq_true.
  rewrite !Qle_bool_iff, !Qabs_Qmult. by apply Qmult_le_l, Qabs_positive.
Qed.

Lemma insert_desc_scale c e l :
  ~ (c == 0)%Q ->
  insert_desc (e.1, (c * e.2)%Q) (scale_scores c l) = scale_scores c (insert_desc e l).
Proof.
  intros Hc. induction l as [|y l IH]; [done|].
  change (scale_scores c (y :: l)) with ((y.1, (c * y.2)%Q) :: scale_scores c l).
  cbn [insert_desc].
  assert (Qle_bool (abs_key (y.1, (c * y.2)%Q)) (abs_key (e.1, (c * e.2)%Q))
          = Qle_bool (abs_key y) (abs_key e)) as ->.
  { unfold abs_key. cbn [snd]. by apply Qle_bool_abs_scale. }
  destruct (Qle_bool (abs_key y) (abs_key e)); [done|].
  rewrite IH. done.
Qed.

Lemma sorted_abs_desc_scale c l :
  ~ (c == 0)%Q -> sorted_abs_desc (scale_scores c l) = scale_scores c (sorted_abs_desc l).
Proof.
  intros Hc. induction l as [|e l IH]; [done|].
  change (sorted_abs_desc (scale_scores c (e :: l)))
    with (insert_desc (e.1, (c * e.2)%Q) (sorted_abs_desc (scale_scores c l))).
  rewrite IH. by apply insert_desc_scale.
Qed.

Lemma slice_to_map {A B} (g : A -> B) (l : list A) k :
  slice_to (map g l) k = map g (slice_to l k).
Proof.
  unfold slice_to. rewrite length_map. destruct (decide (k < 0)); apply firstn_map.
Qed.

(** X4.  Only the order of the absolute scores matters: multiplying every
    score of the mapping by the same number other than 0, so also changing
    every sign, selects the same features and makes the same call. *)
Theorem selection_ignores_scale names model instance explanation k c :
  ~ (c == 0)%Q ->
  features_to_remove (scale_scores c explanation) k = features_to_remove explanation k
  ∧ fidelity_metric names model instance (scale_scores c explanation) k
    = fidelity_metric names model instance explanation k.
Proof.
  intros Hc.
  assert (features_to_remove (scale_scores c explanation) k
          = features_to_remove explanation k) as Hsel.
  { unfold features_to_remove, items. rewrite sorted_abs_desc_scale by done.
    unfold scale_scores. rewrite slice_to_map, map_map. done. }
  split; [exact Hsel|]. unfold fidelity_metric. by rewrite Hsel.
Qed.

Lemma selection_ignores_scale_witness :
  features_to_remove (scale_scores (-3) Scenario.importance) 2
  = features_to_remove Scenario.importance 2
  ∧ fidelity_metric Scenario.names Scenario.f 0%nat (scale_scores (-3) Scenario.importance) 2
    = fidelity_metric Scenario.names Scenario.f 0%nat Scenario.importance 2.
Proof.
  apply (selection_ignores_scale Scenario.names Scenario.f 0%nat Scenario.importance 2 (-3)).
  intros Hc. discriminate Hc.
Defined.

Lemma zero_features_is_ok names feats a :
  (zero_features names feats a).1 = Ok tt <->
  (forall feature, feature ∈ feats ->
     exists idx, index_of names feature = Some idx ∧ (idx < length a)%nat).
Proof.
  split.
  - intros Hok. destruct (zero_features names feats a) as [r a'] eqn:Hz.
    simpl in Hok. subst r. by eapply zero_features_ok_resolves.
  - intros Hall. by rewrite zero_features_ok.
Qed.

Lemma fidelity_value_is_ok names model x explanation k :
  (exists q, fidelity_value names model x explanation k = Ok q) <->
  (zero_features names (features_to_remove explanation k) x).1 = Ok tt.
Proof.
  unfold fidelity_value.
  destruct (zero_features names (features_to_remove explanation k) x) as [[[]|e] x'];
    simpl; split; try done; eauto.
  by intros [q Hq].
Qed.

(** X5.  Selections are nested: for [0 <= k <= k'] the features selected
    with [k] are the first of those selected with [k'].  So when the call
    with [k'] returns a number, the call with [k] does too. *)
Theorem selections_are_nested names model instance st x explanation k k' :
  arrays st !! instance = Some x ->
  0 <= k -> k <= k' ->
  features_to_remove explanation k `prefix_of` features_to_remove explanation k'
  ∧ ((exists q', (fidelity_metric names model instance explanation k' st).1 = Ok q') ->
     exists q, (fidelity_metric names model instance explanation k st).1 = Ok q).
Proof.
  intros Hx Hk Hkk'.
  assert (features_to_remove explanation k `prefix_of` features_to_remove explanation k')
    as Hpre.
  { unfold features_to_remove, items. rewrite !slice_to_nonneg by lia.
    set (l := sorted_abs_desc explanation).
    exists (map fst (drop (Z.to_nat k) (take (Z.to_nat k') l))).
    rewrite <- map_app. f_equal.
    rewrite <- (take_drop (Z.to_nat k) (take (Z.to_nat k') l)) at 1.
    f_equal. rewrite take_take. f_equal. lia. }
  split; [exact Hpre|].
  rewrite !(fidelity_metric_run _ _ _ _ _ _ _ Hx). simpl.
  rewrite !fidelity_value_is_ok, !zero_features_is_ok.
  intros Hall feature Hin. apply Hall.
  destruct Hpre as [rest ->]. apply elem_of_app. by left.
Qed.

Lemma selections_are_nested_witness :
  features_to_remove Scenario.importance 1 `prefix_of` features_to_remove Scenario.importance 3
  ∧ ((exists q', (fidelity_metric Scenario.names Scenario.f 0%nat Scenario.importance 3
                    Scenario.st0).1 = Ok q') ->
     exists q, (fidelity_metric Scenario.names Scenario.f 0%nat Scenario.importance 1
                  Scenario.st0).1 = Ok q).
Proof.
  apply (selections_are_nested Scenario.names Scenario.f 0%nat Scenario.st0 Scenario.x
           Scenario.importance 1 3); [reflexivity|lia|lia].
Defined.

Lemma features_to_remove_keys explanation k feature :
  feature ∈ features_to_remove explanation k -> feature ∈ map fst explanation.
Proof.
  unfold features_to_remove, items. intros Hin.
  rewrite <- (Permutation_map fst (sorted_abs_desc_perm explanation)).
  apply list_elem_of_In, in_map_iff in Hin as (e & <- & He).
  apply list_elem_of_In, in_map. apply list_elem_of_In.
  apply list_elem_of_In in He. revert He. unfold slice_to.
  destruct (decide (k < 0)); apply subseteq_take.
Qed.

Lemma features_to_remove_NoDup explanation k :
  NoDup (map fst explanation) -> NoDup (features_to_remove explanation k).
Proof.
  intros Hnd. unfold features_to_remove, items.
  assert (NoDup (map fst (sorted_abs_desc explanation))) as Hs.
  { by rewrite (Permutation_map fst (sorted_abs_desc_perm explanation)). }
  refine (sublist_NoDup _ _ Hs _).
  unfold slice_to. destruct (decide (k < 0)); rewrite <- firstn_map; apply sublist_take.
Qed.

(** X6.  The selected features are keys of the mapping, each at most once
    when the keys are distinct, and their number is [min k n] for [k >= 0]
    and [max 0 (n + k)] for [k < 0], [n] being the number of entries. *)
Theorem selection_size_and_keys explanation k :
  let n := length explanation in
  (forall feature, feature ∈ features_to_remove explanation k ->
     feature ∈ map fst explanation)
  ∧ (NoDup (map fst explanation) -> NoDup (features_to_remove explanation k))
  ∧ length (features_to_remove explanation k)
    = (if decide (k < 0) then Z.to_nat (Z.max 0 (Z.of_nat n + k))
       else Nat.min (Z.to_nat k) n).
Proof.
  intros n. split; [intros feature; apply features_to_remove_keys|].
  split; [apply features_to_remove_NoDup|].
  unfold features_to_remove, items, slice_to. rewrite length_map.
  destruct (decide (k < 0)); rewrite length_take, sorted_abs_desc_length; lia.
Qed.

Lemma selection_size_and_keys_witness :
  NoDup (features_to_remove Scenario.importance (-1)).
Proof.
  apply (proj1 (proj2 (selection_size_and_keys Scenario.importance (-1)))).
  simpl. repeat constructor; rewrite ?elem_of_cons, ?elem_of_nil; naive_solver.
Defined.

(** X7.  For a model whose outputs lie between 0 and 1, as probabilities
    do, a score that [fidelity_metric] returns lies between -1 and 1. *)
Theorem score_between_minus_one_and_one names model instance st x explanation k q :
  (forall v, (0 <= model v)%Q ∧ (model v <= 1)%Q) ->
  arrays st !! instance = Some x ->
  (fidelity_metric names model instance explanation k st).1 = Ok q ->
  (-1 <= q)%Q ∧ (q <= 1)%Q.
Proof.
  intros Hprob Hx. rewrite (fidelity_metric_run _ _ _ _ _ _ _ Hx). simpl. intros Hq.
  apply fidelity_value_ok in Hq as [_ ->].
  destruct (Hprob x) as [H0 H1].
  destruct (Hprob (perturbed_spec
                     (positions_of names (features_to_remove explanation k)) x)) as [H0' H1'].
  split; lra.
Qed.

Lemma step_model_probability v :
  (0 <= HybridScenario.step_model v)%Q ∧ (HybridScenario.step_model v <= 1)%Q.
Proof.
  unfold HybridScenario.step_model.
  destruct (Qle_bool (default 0%Q (v !! 0%nat)) 0); split; discriminate.
Qed.

Lemma score_between_minus_one_and_one_witness :
  (-1 <= 1)%Q ∧ (1 <= 1)%Q.
Proof.
  apply (score_between_minus_one_and_one Scenario.names HybridScenario.step_model 0%nat
           Scenario.st0 Scenario.x Scenario.importance 3 1%Q).
  - apply step_model_probability.
  - reflexivity.
  - reflexivity.
Defined.

(** X8.  When the feature names are distinct and one per position, the keys
    of the mapping are exactly the feature names, and [k] is at least the
    number of entries, every position of the perturbed copy is 0 and the
    score is the model's output on the instance minus its output on the
    all-zero instance. *)
Theorem full_mapping_zeroes_instance names model instance st x explanation k :
  arrays st !! instance = Some x ->
  NoDup names ->
  length names = length x ->
  (forall feature, feature ∈ names <-> feature ∈ map fst explanation) ->
  Z.of_nat (length explanation) <= k ->
  let run := fidelity_metric names model instance explanation k st in
  arrays run.2 !! perturbed_loc st = Some (replicate (length x) 0%Q)
  ∧ run.1 = Ok (model x - model (replicate (length x) 0%Q))%Q.
Proof.
  intros Hx Hnd Hlen Hkeys Hk run. subst run.
  assert (features_to_remove explanation k = map fst (sorted_abs_desc explanation)) as Hfeat.
  { unfold features_to_remove, items. rewrite slice_to_all; [done|].
    rewrite sorted_abs_desc_length. lia. }
  assert (forall feature, feature ∈ map fst (sorted_abs_desc explanation) <-> feature ∈ names)
    as Hsel.
  { intros feature. rewrite (Permutation_map fst (sorted_abs_desc_perm explanation)).
    symmetry. apply Hkeys. }
  rewrite (fidelity_metric_run _ _ _ _ _ _ _ Hx). simpl.
  unfold fidelity_value. rewrite Hfeat.
  rewrite zero_features_ok.
  - rewrite perturbed_spec_all.
    + simpl. by rewrite lookup_insert_eq.
    + intros i Hi. unfold positions_of. apply list_elem_of_omap.
      destruct (lookup_lt_is_Some_2 names i) as [f Hf]; [lia|].
      exists f. split; [|by apply index_of_NoDup].
      apply Hsel. by eapply list_elem_of_lookup_2.
  - intros feature Hin. apply Hsel in Hin.
    destruct (index_of names feature) as [idx|] eqn:Hidx.
    + exists idx. split; [done|].
      apply index_of_Some, lookup_lt_Some in Hidx. lia.
    + by apply index_of_None in Hidx.
Qed.

Lemma full_mapping_zeroes_instance_witness :
  let run := fidelity_metric Scenario.names Scenario.f 0%nat Scenario.importance 5
               Scenario.st0 in
  arrays run.2 !! perturbed_loc Scenario.st0 = Some (replicate (length Scenario.x) 0%Q)
  ∧ run.1 = Ok (Scenario.f Scenario.x - Scenario.f (replicate (length Scenario.x) 0%Q))%Q.
Proof.
  apply (full_mapping_zeroes_instance Scenario.names Scenario.f 0%nat Scenario.st0
           Scenario.x Scenario.importance 5).
  - reflexivity.
  - unfold Scenario.names. repeat constructor; rewrite ?elem_of_cons, ?elem_of_nil; naive_solver.
  - reflexivity.
  - intros feature. reflexivity.
  - simpl. lia.
Defined.

(** ** Outcome of [compute_average_fidelity] *)


Lemma samples_value_Forall names model X explainer k (P : Q -> Prop) idxs : forall acc l,
  (forall i q, sample_value names model X explainer k i = Ok q -> P q) ->
  Forall P acc ->
  samples_value names model X explainer k idxs acc = Ok l ->
  Forall P l.
Proof.
  induction idxs as [|i rest IH]; intros acc l HP Hacc Hs; simpl in Hs.
  - by injection Hs as <-.
  - destruct (sample_value names model X explainer k i) as [q|e] eqn:Hq; [|done].
    eapply IH; [done| |done]. apply Forall_app. split; [done|].
    repeat constructor. by eapply HP.
Qed.



Lemma samples_value_rows names model X X' explainer k n idxs : forall acc,
  take n X' = take n X ->
  Forall (fun i => (i < n)%nat) idxs ->
  samples_value names model X' explainer k idxs acc
  = samples_value names model X explainer k idxs acc
  ∧ rows_explained names model X' explainer k idxs
    = rows_explained names model X explainer k idxs.
Proof.
  intros acc Htake Hidx. revert acc.
  induction Hidx as [|i rest Hi _ IH]; intros acc; [done|].
  assert (X' !! i = X !! i) as Hrow.
  { rewrite <- (lookup_take_lt X' n i Hi), <- (lookup_take_lt X n i Hi). by rewrite Htake. }
  simpl. unfold sample_value. rewrite Hrow.
  destruct (X !! i) as [row|]; [|done].
  destruct (fidelity_value names model row (dict_of_pairs (explainer row 5)) k); simpl.
  - destruct (IH (acc ++ [a])) as [-> ->]. done.
  - done.
Qed.

(** X10.  [compute_average_fidelity] reads the first [num_samples] rows of
    [X] and no other: two arrays with the same first [num_samples] rows give
    the same result and the same requests to the explainer. *)
Theorem only_first_rows_are_read names model X X' explainer num_samples k st :
  take (Z.to_nat num_samples) X' = take (Z.to_nat num_samples) X ->
  (compute_average_fidelity names model X' explainer num_samples k st).1
  = (compute_average_fidelity names model X explainer num_samples k st).1
  ∧ requests (compute_average_fidelity names model X' explainer num_samples k st).2
    = requests (compute_average_fidelity names model X explainer num_samples k st).2.
Proof.
  intros Htake.
  destruct (compute_average_fidelity_run names model X explainer k num_samples st)
    as (st1 & -> & Hreq1 & _).
  destruct (compute_average_fidelity_run names model X' explainer k num_samples st)
    as (st2 & -> & Hreq2 & _).
  simpl. rewrite Hreq1, Hreq2.
  destruct (samples_value_rows names model X X' explainer k (Z.to_nat num_samples)
              (range num_samples) [] Htake) as [-> ->]; [|done].
  unfold range. apply Forall_forall. intros i Hi. apply elem_of_seq in Hi. lia.
Qed.

Lemma only_first_rows_are_read_witness :
  (compute_average_fidelity Scenario.names Scenario.f (take 2 Scenario.X3 ++ [[9; 9; 9]%Q])
     Scenario.explain_f0 2 1 Scenario.st_empty).1
  = (compute_average_fidelity Scenario.names Scenario.f Scenario.X3
       Scenario.explain_f0 2 1 Scenario.st_empty).1
  ∧ requests (compute_average_fidelity Scenario.names Scenario.f
                (take 2 Scenario.X3 ++ [[9; 9; 9]%Q])
                Scenario.explain_f0 2 1 Scenario.st_empty).2
    = requests (compute_average_fidelity Scenario.names Scenario.f Scenario.X3
                  Scenario.explain_f0 2 1 Scenario.st_empty).2.
Proof.
  apply (only_first_rows_are_read Scenario.names Scenario.f Scenario.X3
           (take 2 Scenario.X3 ++ [[9; 9; 9]%Q]) Scenario.explain_f0 2 1 Scenario.st_empty).
  reflexivity.
Defined.

Lemma samples_value_prefix names model X explainer k tail : forall m s acc,
  (forall j, (s <= j < s + m)%nat ->
     exists q, sample_value names model X explainer k j = Ok q) ->
  exists scores,
    samples_value names model X explainer k (seq s m ++ tail) acc
    = samples_value names model X explainer k tail (acc ++ scores)
    ∧ rows_explained names model X explainer k (seq s m ++ tail)
      = take m (drop s X) ++ rows_explained names model X explainer k tail.
Proof.
  induction m as [|m IH]; intros s acc Hok.
  - exists []. by rewrite app_nil_r.
  - destruct (Hok s) as [q Hq]; [lia|].
    destruct (IH (S s) (acc ++ [q])) as (scores & Hv & Hr).
    { intros j Hj. apply Hok. lia. }
    exists (q :: scores). cbn [seq app samples_value rows_explained].
    rewrite Hq, Hv, Hr. cbn [is_ok]. split; [by rewrite <- app_assoc|].
    unfold sample_value in Hq. destruct (X !! s) as [row|] eqn:Hrow; [|done].
    by rewrite (drop_S _ _ _ Hrow).
Qed.

(** X11.  The loop of [compute_average_fidelity] stops at the first row
    that fails: when the rows before row [i] score and row [i] raises, by
    being absent or inside [fidelity_metric], the call raises the same
    exception, and the explainer has been asked about the rows up to and
    including row [i] when it exists, each time for 5 features. *)
Theorem first_failure_ends_the_loop names model X explainer num_samples k st i e :
  (i < Z.to_nat num_samples)%nat ->
  (forall j, (j < i)%nat -> exists q, sample_value names model X explainer k j = Ok q) ->
  sample_value names model X explainer k i = Raise e ->
  let run := compute_average_fidelity names model X explainer num_samples k st in
  run.1 = Raise e
  ∧ requests run.2
    = requests st
      ++ map (fun row => (row, 5))
             (take (match X !! i with Some _ => S i | None => i end) X).
Proof.
  intros Hi Hbefore Hfail run. subst run.
  destruct (compute_average_fidelity_run names model X explainer k num_samples st)
    as (st' & -> & Hreq & _). simpl. rewrite Hreq. clear Hreq.
  unfold range.
  replace (Z.to_nat num_samples) with (i + S (Z.to_nat num_samples - S i))%nat by lia.
  rewrite seq_app. cbn [seq Nat.add].
  destruct (samples_value_prefix names model X explainer k
              (i :: seq (S i) (Z.to_nat num_samples - S i)) i 0%nat [])
    as (scores & -> & ->).
  { intros j Hj. apply Hbefore. lia. }
  cbn [samples_value rows_explained]. rewrite Hfail. cbn [is_ok].
  split; [done|]. do 2 f_equal. rewrite drop_0.
  destruct (X !! i) as [row|] eqn:Hrow.
  - by rewrite (take_S_r _ _ _ Hrow).
  - by rewrite app_nil_r.
Qed.

Lemma first_failure_ends_the_loop_witness :
  let run := compute_average_fidelity Scenario.names Scenario.f Scenario.X3
               Scenario.explain_f0 5 1 Scenario.st_empty in
  run.1 = Raise IndexError
  ∧ requests run.2
    = requests Scenario.st_empty
      ++ map (fun row => (row, 5))
             (take (match Scenario.X3 !! 3%nat with Some _ => 4%nat | None => 3%nat end)
                Scenario.X3).
Proof.
  apply (first_failure_ends_the_loop Scenario.names Scenario.f Scenario.X3
           Scenario.explain_f0 5 1 Scenario.st_empty 3%nat IndexError).
  - simpl. lia.
  - intros j Hj. destruct j as [|[|[|j]]]; [by eexists..|lia].
  - reflexivity.
Defined.

Lemma Qsum_between l :
  Forall (fun s => (-1 <= s)%Q ∧ (s <= 1)%Q) l ->
  (- inject_Z (Z.of_nat (length l)) <= Qsum l)%Q
  ∧ (Qsum l <= inject_Z (Z.of_nat (length l)))%Q.
Proof.
  induction 1 as [|s l [Hlo Hhi] _ [IHlo IHhi]].
  - split; discriminate.
  - rewrite Qsum_cons. cbn [length]. rewrite Nat2Z.inj_succ, <- Z.add_1_r, inject_Z_plus.
    change (inject_Z 1) with 1%Q. split; lra.
Qed.

(** X12.  For a model whose outputs lie between 0 and 1 the average that
    [compute_average_fidelity] returns, when it is a number, lies between -1
    and 1. *)
Theorem average_between_minus_one_and_one names model X explainer num_samples k st q :
  (forall v, (0 <= model v)%Q ∧ (model v <= 1)%Q) ->
  (compute_average_fidelity names model X explainer num_samples k st).1 = Ok (Real q) ->
  (-1 <= q)%Q ∧ (q <= 1)%Q.
Proof.
  intros Hprob.
  destruct (compute_average_fidelity_run names model X explainer k num_samples st)
    as (st' & -> & _ & _). simpl.
  destruct (samples_value names model X explainer k (range num_samples) [])
    as [l|e] eqn:Hs; [|done].
  assert (Forall (fun s => (-1 <= s)%Q ∧ (s <= 1)%Q) l) as Hall.
  { eapply samples_value_Forall; [|constructor|exact Hs].
    intros i s. unfold sample_value. destruct (X !! i) as [row|]; [|done].
    intros Hv. apply fidelity_value_ok in Hv as [_ ->].
    destruct (Hprob row) as [H0 H1].
    destruct (Hprob (perturbed_spec
                       (positions_of names
                          (features_to_remove (dict_of_pairs (explainer row 5)) k)) row))
      as [H0' H1'].
    split; lra. }
  destruct l as [|s l]; [done|]. unfold np_mean. intros [= <-].
  apply Qsum_between in Hall as [Hlo Hhi]. cbn [length] in Hlo, Hhi |- *.
  set (n := inject_Z (Z.of_nat (S (length l)))) in *.
  assert (0 < n)%Q as Hn.
  { subst n. change 0%Q with (inject_Z 0). rewrite <- Zlt_Qlt. lia. }
  clearbody n. split.
  - apply Qle_shift_div_l; [done|]. lra.
  - apply Qle_shift_div_r; [done|]. lra.
Qed.

Lemma average_between_minus_one_and_one_witness :
  (-1 <= 3 # 3)%Q ∧ (3 # 3 <= 1)%Q.
Proof.
  apply (average_between_minus_one_and_one Scenario.names HybridScenario.step_model
           Scenario.X3 Scenario.explain_f0 3 1 Scenario.st_empty (3 # 3)).
  - apply step_model_probability.
  - reflexivity.
Defined.

(** ** Dictionaries *)

Lemma dict_get_setitem_eq d key v dflt : dict_get (dict_setitem d key v) key dflt = v.
Proof.
  induction d as [|[k' v'] d IH]; simpl.
  - by rewrite decide_True.
  - destruct (decide (k' = key)) as [->|Hne]; simpl.
    + by rewrite decide_True.
    + by rewrite decide_False.
Qed.

Lemma dict_get_setitem_ne d key v key' dflt :
  key ≠ key' -> dict_get (dict_setitem d key v) key' dflt = dict_get d key' dflt.
Proof.
  intros Hne. induction d as [|[k' v'] d IH]; simpl.
  - by rewrite decide_False.
  - destruct (decide (k' = key)) as [->|Hne']; simpl.
    + by rewrite !decide_False.
    + destruct (decide (k' = key')); [done|exact IH].
Qed.

Lemma dict_get_absent d key dflt : key ∉ map fst d -> dict_get d key dflt = dflt.
Proof.
  induction d as [|[k' v'] d IH]; simpl; [done|]. intros Hnot.
  rewrite decide_False by set_solver. apply IH. set_solver.
Qed.

Lemma dict_get_app d1 d2 key dflt :
  dict_get (d1 ++ d2) key dflt = dict_get d1 key (dict_get d2 key dflt).
Proof.
  induction d1 as [|[k' v'] d1 IH]; simpl; [done|].
  by destruct (decide (k' = key)).
Qed.

Lemma dict_setitem_keys_old d key v :
  key ∈ map fst d -> map fst (dict_setitem d key v) = map fst d.
Proof.
  induction d as [|[k' v'] d IH]; simpl; intros Hin.
  - by apply elem_of_nil in Hin.
  - destruct (decide (k' = key)) as [->|Hne]; simpl; [done|].
    f_equal. apply IH. set_solver.
Qed.

Lemma dict_setitem_keys_new d key v :
  key ∉ map fst d -> map fst (dict_setitem d key v) = map fst d ++ [key].
Proof.
  induction d as [|[k' v'] d IH]; simpl; intros Hnot; [done|].
  rewrite decide_False by set_solver. simpl. f_equal. apply IH. set_solver.
Qed.

Lemma dict_setitem_NoDup d key v :
  NoDup (map fst d) -> NoDup (map fst (dict_setitem d key v)).
Proof.
  intros Hnd. destruct (decide (key ∈ map fst d)) as [Hin|Hnot].
  - by rewrite dict_setitem_keys_old.
  - rewrite dict_setitem_keys_new by done.
    apply NoDup_app. split; [done|]. split; [|apply NoDup_singleton].
    intros x Hx Hx'. apply list_elem_of_singleton in Hx' as ->. done.
Qed.

Lemma dict_setitem_elem d key v key' :
  key' ∈ map fst (dict_setitem d key v) <-> key' = key ∨ key' ∈ map fst d.
Proof.
  destruct (decide (key ∈ map fst d)) as [Hin|Hnot].
  - rewrite dict_setitem_keys_old by done. naive_solver.
  - rewrite dict_setitem_keys_new by done. rewrite elem_of_app, list_elem_of_singleton.
    naive_solver.
Qed.

Lemma fold_dict_setitem pairs : forall d,
  let d' := fold_left (fun d kv => dict_setitem d kv.1 kv.2) pairs d in
  (NoDup (map fst d) -> NoDup (map fst d'))
  ∧ (forall key, key ∈ map fst d' <-> key ∈ map fst pairs ∨ key ∈ map fst d)
  ∧ (forall key dflt, dict_get d' key dflt = dict_get (reverse pairs ++ d) key dflt).
Proof.
  induction pairs as [|[k v] pairs IH]; intros d; simpl.
  - split; [done|]. split; [|done]. intros key. rewrite elem_of_nil. naive_solver.
  - destruct (IH (dict_setitem d k v)) as (Hnd & Hkeys & Hget). split; [|split].
    + intros Hd. by apply Hnd, dict_setitem_NoDup.
    + intros key. rewrite Hkeys, dict_setitem_elem, elem_of_cons. naive_solver.
    + intros key dflt. rewrite Hget, reverse_cons, <- app_assoc, !dict_get_app.
      f_equal. simpl. destruct (decide (k = key)) as [->|Hne].
      * apply dict_get_setitem_eq.
      * by apply dict_get_setitem_ne.
Qed.

(** X13.  [dict(pairs)], as the notebook applies it to what an explainer
    lists: every feature listed is a key and no other, no key occurs twice,
    and the score of a feature is the last one listed for it.  So the
    features [fidelity_metric] selects from such a dictionary are distinct
    even when the explainer lists a feature more than once. *)
Theorem dict_keeps_last_score pairs :
  NoDup (map fst (dict_of_pairs pairs))
  ∧ (forall key, key ∈ map fst (dict_of_pairs pairs) <-> key ∈ map fst pairs)
  ∧ (forall key dflt,
       dict_get (dict_of_pairs pairs) key dflt = dict_get (reverse pairs) key dflt)
  ∧ (forall k, NoDup (features_to_remove (dict_of_pairs pairs) k)).
Proof.
  unfold dict_of_pairs. destruct (fold_dict_setitem pairs []) as (Hnd & Hkeys & Hget).
  assert (NoDup (map fst (fold_left (fun d kv => dict_setitem d kv.1 kv.2) pairs [])))
    as Hnodup by (apply Hnd; constructor).
  split; [exact Hnodup|]. split; [|split].
  - intros key. rewrite Hkeys. simpl. rewrite elem_of_nil. naive_solver.
  - intros key dflt. by rewrite Hget, app_nil_r.
  - intros k. by apply features_to_remove_NoDup.
Qed.

(** ** The hybrid explanation *)

Lemma enumerate_from_snd {A} (l : list A) : forall i, map snd (enumerate_from i l) = l.
Proof. induction l as [|x l IH]; intros i; simpl; [done|]. by rewrite IH. Qed.

Lemma hybrid_loop_keys_subset lime shap enumerated : forall acc feature,
  feature ∈ map fst (hybrid_loop lime shap enumerated acc).2 ->
  feature ∈ map fst acc ∨ feature ∈ map snd enumerated.
Proof.
  induction enumerated as [|[idx f] rest IH]; intros acc feature Hin; simpl in *.
  - by left.
  - destruct (shap !! idx) as [s|]; [|by left].
    apply IH in Hin as [Hin|Hin]; [|set_solver].
    apply dict_setitem_elem in Hin as [->|Hin]; set_solver.
Qed.

Lemma hybrid_loop_get_other lime shap enumerated feature dflt : forall acc,
  feature ∉ map snd enumerated ->
  dict_get (hybrid_loop lime shap enumerated acc).2 feature dflt = dict_get acc feature dflt.
Proof.
  induction enumerated as [|[idx f] rest IH]; intros acc Hnot; simpl in *; [done|].
  destruct (shap !! idx) as [s|]; [|done].
  rewrite IH by set_solver. apply dict_get_setitem_ne. set_solver.
Qed.

Lemma hybrid_loop_ok lime shap names : forall i acc,
  (i + length names <= length shap)%nat ->
  (hybrid_loop lime shap (enumerate_from i names) acc).1 = Ok tt.
Proof.
  induction names as [|f names IH]; intros i acc Hlen; simpl in *; [done|].
  destruct (lookup_lt_is_Some_2 shap i) as [s ->]; [lia|].
  apply IH. lia.
Qed.

Lemma hybrid_loop_short lime shap names : forall i acc,
  (i <= length shap)%nat ->
  (length shap < i + length names)%nat ->
  hybrid_loop lime shap (enumerate_from i names) acc
  = (Raise IndexError,
     (hybrid_loop lime shap (enumerate_from i (take (length shap - i) names)) acc).2).
Proof.
  induction names as [|f names IH]; intros i acc Hi Hlen; simpl in *; [lia|].
  destruct (decide (i < length shap)%nat) as [Hlt|Hge].
  - destruct (lookup_lt_is_Some_2 shap i Hlt) as [s Hs]. rewrite Hs.
    replace (length shap - i)%nat with (S (length shap - S i)) by lia.
    simpl. rewrite Hs. apply IH; lia.
  - rewrite lookup_ge_None_2 by lia.
    by replace (length shap - i)%nat with 0%nat by lia.
Qed.

Lemma hybrid_loop_keys lime shap names : forall i acc,
  NoDup names ->
  (forall feature, feature ∈ names -> feature ∉ map fst acc) ->
  (i + length names <= length shap)%nat ->
  map fst (hybrid_loop lime shap (enumerate_from i names) acc).2 = map fst acc ++ names.
Proof.
  induction names as [|f names IH]; intros i acc Hnd Hdisj Hlen; simpl in *.
  - by rewrite app_nil_r.
  - destruct (lookup_lt_is_Some_2 shap i) as [s ->]; [lia|].
    apply NoDup_cons in Hnd as [Hf Hnd].
    rewrite IH; [| done | | lia].
    + rewrite dict_setitem_keys_new by (apply Hdisj; set_solver).
      by rewrite <- app_assoc.
    + intros feature Hin Hkey. apply dict_setitem_elem in Hkey as [->|Hkey]; [done|].
      apply (Hdisj feature); [set_solver|done].
Qed.

Lemma hybrid_loop_value lime shap names dflt : forall i acc j feature s,
  NoDup names ->
  (i + length names <= length shap)%nat ->
  names !! j = Some feature ->
  shap !! (i + j)%nat = Some s ->
  dict_get (hybrid_loop lime shap (enumerate_from i names) acc).2 feature dflt
  = ((dict_get lime feature 0 + s) / 2)%Q.
Proof.
  induction names as [|f names IH]; intros i acc j feature s Hnd Hlen Hj Hs;
    simpl in *; [done|].
  destruct (lookup_lt_is_Some_2 shap i) as [s0 Hs0]; [lia|]. rewrite Hs0.
  apply NoDup_cons in Hnd as [Hf Hnd].
  destruct j as [|j]; simpl in Hj.
  - injection Hj as ->. rewrite Nat.add_0_r in Hs. assert (s0 = s) as -> by congruence.
    rewrite hybrid_loop_get_other by (by rewrite enumerate_from_snd).
    apply dict_get_setitem_eq.
  - eapply IH; [done| lia | done |]. by replace (S i + j)%nat with (i + S j)%nat by lia.
Qed.

(** X14.  The hybrid loop needs a SHAP value for every feature name: with
    at least as many SHAP values as feature names it finishes; with fewer it
    raises [IndexError], and [hybrid_scores] then holds the scores of the
    features that have a SHAP value, as a finished run over those features
    would leave them. *)
Theorem hybrid_needs_a_shap_value_per_feature names lime_exp_list shap :
  ((length names <= length shap)%nat ->
   (hybrid_explanation names lime_exp_list shap).1 = Ok tt)
  ∧ ((length shap < length names)%nat ->
     hybrid_explanation names lime_exp_list shap
     = (Raise IndexError,
        (hybrid_explanation (take (length shap) names) lime_exp_list shap).2)
     ∧ (hybrid_explanation (take (length shap) names) lime_exp_list shap).1 = Ok tt).
Proof.
  unfold hybrid_explanation, enumerate. split.
  - intros Hlen. by apply hybrid_loop_ok.
  - intros Hlen. split.
    + rewrite hybrid_loop_short by lia. by rewrite Nat.sub_0_r.
    + apply hybrid_loop_ok. rewrite length_take. lia.
Qed.

Lemma hybrid_needs_a_shap_value_per_feature_witness :
  (hybrid_explanation Scenario.names HybridScenario.lime_exp_list
     HybridScenario.shap_val_instance).1 = Ok tt
  ∧ hybrid_explanation Scenario.names HybridScenario.lime_exp_list [2; 6]%Q
    = (Raise IndexError,
       (hybrid_explanation (take (length [2; 6]%Q) Scenario.names)
          HybridScenario.lime_exp_list [2; 6]%Q).2).
Proof.
  split.
  - apply (proj1 (hybrid_needs_a_shap_value_per_feature Scenario.names
                    HybridScenario.lime_exp_list HybridScenario.shap_val_instance)).
    simpl. lia.
  - apply (proj2 (hybrid_needs_a_shap_value_per_feature Scenario.names
                    HybridScenario.lime_exp_list [2; 6]%Q)).
    simpl. lia.
Defined.

(** X15.  With distinct feature names and a SHAP value for each, the hybrid
    explanation has the feature names as its keys, in their order, and the
    score of feature [i] is the mean of its LIME score, 0 when LIME does not
    list it, and the SHAP value at position [i]. *)
Theorem hybrid_scores_every_feature names lime_exp_list shap :
  NoDup names ->
  (length names <= length shap)%nat ->
  let hybrid_scores := (hybrid_explanation names lime_exp_list shap).2 in
  map fst hybrid_scores = names
  ∧ (forall i feature s dflt,
       names !! i = Some feature -> shap !! i = Some s ->
       dict_get hybrid_scores feature dflt
       = ((dict_get (dict_of_pairs lime_exp_list) feature 0 + s) / 2)%Q).
Proof.
  intros Hnd Hlen hybrid_scores. subst hybrid_scores.
  unfold hybrid_explanation, enumerate. split.
  - rewrite hybrid_loop_keys; [done|done| |done].
    intros feature _ Hin. by apply elem_of_nil in Hin.
  - intros i feature s dflt Hi Hs. by eapply hybrid_loop_value.
Qed.

Lemma names_NoDup : NoDup Scenario.names.
Proof.
  unfold Scenario.names. repeat constructor; rewrite ?elem_of_cons, ?elem_of_nil; naive_solver.
Qed.

Lemma hybrid_scores_every_feature_witness :
  let hybrid_scores := (hybrid_explanation Scenario.names HybridScenario.lime_exp_list
                          HybridScenario.shap_val_instance).2 in
  map fst hybrid_scores = Scenario.names
  ∧ (forall i feature s dflt,
       Scenario.names !! i = Some feature ->
       HybridScenario.shap_val_instance !! i = Some s ->
       dict_get hybrid_scores feature dflt
       = ((dict_get (dict_of_pairs HybridScenario.lime_exp_list) feature 0 + s) / 2)%Q).
Proof.
  apply (hybrid_scores_every_feature Scenario.names HybridScenario.lime_exp_list
           HybridScenario.shap_val_instance).
  - apply names_NoDup.
  - simpl. lia.
Defined.

(** X16.  Every key of [hybrid_scores] is a feature name, whether the loop
    finished or raised: what LIME lists outside the feature names is left
    out.  And, with distinct feature names and a SHAP value for each, a
    feature that LIME does not list scores half its SHAP value. *)
Theorem hybrid_drops_unknown_and_halves_unlisted names lime_exp_list shap :
  let hybrid_scores := (hybrid_explanation names lime_exp_list shap).2 in
  (forall key, key ∈ map fst hybrid_scores -> key ∈ names)
  ∧ (NoDup names -> (length names <= length shap)%nat ->
     forall i feature s dflt,
       names !! i = Some feature -> shap !! i = Some s ->
       feature ∉ map fst lime_exp_list ->
       (dict_get hybrid_scores feature dflt == s / 2)%Q).
Proof.
  intros hybrid_scores. subst hybrid_scores. unfold hybrid_explanation, enumerate. split.
  - intros key Hkey. apply hybrid_loop_keys_subset in Hkey as [Hkey|Hkey].
    + by apply elem_of_nil in Hkey.
    + by rewrite enumerate_from_snd in Hkey.
  - intros Hnd Hlen i feature s dflt Hi Hs Hnot.
    rewrite (hybrid_loop_value _ _ _ dflt 0%nat [] i feature s Hnd Hlen Hi Hs).
    rewrite dict_get_absent.
    + unfold Qdiv. ring.
    + intros Hin. apply Hnot. unfold dict_of_pairs in Hin.
      apply (proj1 (proj2 (fold_dict_setitem lime_exp_list []))) in Hin as [Hin|Hin];
        [done|by apply elem_of_nil in Hin].
Qed.

Lemma hybrid_drops_unknown_and_halves_unlisted_witness :
  (dict_get (hybrid_explanation Scenario.names HybridScenario.lime_exp_list
               HybridScenario.shap_val_instance).2 "f0"%string 7 == 2 / 2)%Q.
Proof.
  apply (proj2 (hybrid_drops_unknown_and_halves_unlisted Scenario.names
                  HybridScenario.lime_exp_list HybridScenario.shap_val_instance)
           names_NoDup) with (i := 0%nat).
  - simpl. lia.
  - reflexivity.
  - reflexivity.
  - unfold HybridScenario.lime_exp_list. simpl.
    rewrite !elem_of_cons, elem_of_nil. naive_solver.
Defined.

(** X17.  [fidelity_metric] called with the hybrid explanation, on an
    instance that has a position for every feature name, never raises:
    whatever LIME lists and whatever [k] is, it returns a number. *)
Theorem fidelity_of_hybrid_returns names model instance st x lime_exp_list shap k :
  arrays st !! instance = Some x ->
  (length names <= length x)%nat ->
  exists q,
    (fidelity_metric names model instance
       (hybrid_explanation names lime_exp_list shap).2 k st).1 = Ok q.
Proof.
  intros Hx Hlen. rewrite (fidelity_metric_run _ _ _ _ _ _ _ Hx). simpl.
  apply fidelity_value_is_ok, zero_features_is_ok.
  intros feature Hin. apply features_to_remove_keys in Hin.
  unfold hybrid_explanation, enumerate in Hin.
  apply hybrid_loop_keys_subset in Hin as [Hin|Hin]; [by apply elem_of_nil in Hin|].
  rewrite enumerate_from_snd in Hin.
  destruct (index_of names feature) as [idx|] eqn:Hidx.
  - exists idx. split; [done|]. apply index_of_Some, lookup_lt_Some in Hidx. lia.
  - by apply index_of_None in Hidx.
Qed.

Lemma fidelity_of_hybrid_returns_witness :
  exists q,
    (fidelity_metric Scenario.names Scenario.f 0%nat
       (hybrid_explanation Scenario.names HybridScenario.lime_exp_list
          HybridScenario.shap_val_instance).2 2 Scenario.st0).1 = Ok q.
Proof.
  apply (fidelity_of_hybrid_returns Scenario.names Scenario.f 0%nat Scenario.st0 Scenario.x
           HybridScenario.lime_exp_list HybridScenario.shap_val_instance 2).
  - reflexivity.
  - simpl. lia.
Defined.

(** ** The order of the mapping *)

Lemma filter_same_key_perm c (l l' : list (string * Q)) :
  l ≡ₚ l' -> List.filter (same_key c) l ≡ₚ List.filter (same_key c) l'.
Proof.
  induction 1 as [|e l l' _ IH|e1 e2 l|l1 l2 l3 _ IH1 _ IH2]; simpl.
  - done.
  - destruct (same_key c e); [by constructor|done].
  - destruct (same_key c e1), (same_key c e2); try done. apply Permutation_swap.
  - by etrans.
Qed.

Lemma short_perm_eq {A} (l l' : list A) : l ≡ₚ l' -> (length l <= 1)%nat -> l = l'.
Proof.
  intros Hp Hlen. destruct l as [|a [|b l]]; simpl in Hlen; [| |lia].
  - by apply Permutation_nil in Hp.
  - by apply Permutation_singleton_l in Hp.
Qed.

(** X18.  The order of the entries of the mapping matters for ties only:
    when no two entries have the same absolute score, a mapping with the
    same entries in another order selects the same features, in the same
    order, and makes the same call. *)
Theorem order_matters_for_ties_only names model instance explanation explanation' k :
  explanation ≡ₚ explanation' ->
  (forall c, (length (List.filter (same_key c) explanation) <= 1)%nat) ->
  features_to_remove explanation' k = features_to_remove explanation k
  ∧ fidelity_metric names model instance explanation' k
    = fidelity_metric names model instance explanation k.
Proof.
  intros Hperm Hties.
  assert (sorted_abs_desc explanation' = sorted_abs_desc explanation) as Hsort.
  { apply stable_descending_sort_unique; [apply sorted_abs_desc_sorted|].
    intros c. rewrite sorted_abs_desc_stable. symmetry.
    apply short_perm_eq; [by apply filter_same_key_perm|apply Hties]. }
  assert (features_to_remove explanation' k = features_to_remove explanation k) as Hsel.
  { unfold features_to_remove, items. by rewrite Hsort. }
  split; [exact Hsel|]. unfold fidelity_metric. by rewrite Hsel.
Qed.

Lemma order_matters_for_ties_only_witness :
  features_to_remove (reverse Scenario.importance) 2 = features_to_remove Scenario.importance 2
  ∧ fidelity_metric Scenario.names Scenario.f 0%nat (reverse Scenario.importance) 2
    = fidelity_metric Scenario.names Scenario.f 0%nat Scenario.importance 2.
Proof.
  apply (order_matters_for_ties_only Scenario.names Scenario.f 0%nat Scenario.importance
           (reverse Scenario.importance) 2).
  - symmetry. apply reverse_Permutation.
  - intros c. unfold Scenario.importance. cbn [List.filter]. unfold same_key, abs_key.
    cbn [snd Qabs Z.abs].
    change (Z.abs 2 # 1) with 2%Q. change (Z.abs 6 # 1) with 6%Q.
    change (Z.abs 0 # 1) with 0%Q.
    destruct (Qeq_bool 2 c) eqn:E2, (Qeq_bool 6 c) eqn:E6, (Qeq_bool 0 c) eqn:E0;
      cbn [length]; try lia;
      rewrite ?Qeq_bool_iff in *; exfalso; lra.
Defined.
